(** * Detection-efficiency model and population inference of the exopop notebook

    A shallow embedding of the numerical core of [post.ipynb]: the orbital
    utilities, the per-star completeness model, the double power-law
    population model and the Poisson-process likelihood.

    Numbers are numpy [float64] values.  A finite value is taken as the exact
    real it denotes (rounding, overflow and the sign of zero are idealised
    away); the IEEE special values [nan], [+inf], [-inf] and the rules that
    produce and propagate them are kept, because the code masks by
    multiplication and tests [np.isfinite]. *)

From Stdlib Require Import String Ascii.
From Stdlib Require Import Reals Lra Lia List Bool ZArith.
Import ListNotations.

Open Scope R_scope.

(** ** numpy float64 values *)

Inductive float : Type :=
| NaN
| PInf
| NInf
| Fin (r : R).

Declare Scope np_scope.
Delimit Scope np_scope with np.
Bind Scope np_scope with float.

Definition Rltb (x y : R) : bool := if Rlt_dec x y then true else false.
Definition Rleb (x y : R) : bool := if Rle_dec x y then true else false.
Definition Reqb (x y : R) : bool := if Req_dec_T x y then true else false.

(** The infinity carrying the sign of [s]; [nan] when [s] is zero. *)
Definition inf_of_sign (s : R) : float :=
  if Rltb 0 s then PInf else if Rltb s 0 then NInf else NaN.

Definition fopp (x : float) : float :=
  match x with
  | NaN => NaN
  | PInf => NInf
  | NInf => PInf
  | Fin a => Fin (- a)
  end.

Definition fadd (x y : float) : float :=
  match x, y with
  | NaN, _ | _, NaN => NaN
  | PInf, NInf | NInf, PInf => NaN
  | PInf, _ | _, PInf => PInf
  | NInf, _ | _, NInf => NInf
  | Fin a, Fin b => Fin (a + b)
  end.

Definition fsub (x y : float) : float := fadd x (fopp y).

Definition fmul (x y : float) : float :=
  match x, y with
  | NaN, _ | _, NaN => NaN
  | Fin a, Fin b => Fin (a * b)
  | Fin a, PInf | PInf, Fin a => inf_of_sign a
  | Fin a, NInf | NInf, Fin a => inf_of_sign (- a)
  | PInf, PInf | NInf, NInf => PInf
  | PInf, NInf | NInf, PInf => NInf
  end.

(** Division; a zero divisor is read as [+0.0]. *)
Definition fdiv (x y : float) : float :=
  match x, y with
  | NaN, _ | _, NaN => NaN
  | Fin a, Fin b => if Reqb b 0 then inf_of_sign a else Fin (a / b)
  | Fin _, PInf | Fin _, NInf => Fin 0
  | PInf, Fin b => if Rltb b 0 then NInf else PInf
  | NInf, Fin b => if Rltb b 0 then PInf else NInf
  | PInf, PInf | PInf, NInf | NInf, PInf | NInf, NInf => NaN
  end.

Notation "x + y" := (fadd x y) : np_scope.
Notation "x - y" := (fsub x y) : np_scope.
Notation "x * y" := (fmul x y) : np_scope.
Notation "x / y" := (fdiv x y) : np_scope.
Notation "- x" := (fopp x) : np_scope.

(** [np.sqrt] *)
Definition fsqrt (x : float) : float :=
  match x with
  | NaN | NInf => NaN
  | PInf => PInf
  | Fin a => if Rltb a 0 then NaN else Fin (sqrt a)
  end.

(** [np.exp] and [np.log] *)
Definition fexp (x : float) : float :=
  match x with
  | NaN => NaN
  | PInf => PInf
  | NInf => Fin 0
  | Fin a => Fin (exp a)
  end.

Definition flog (x : float) : float :=
  match x with
  | NaN | NInf => NaN
  | PInf => PInf
  | Fin a => if Rltb a 0 then NaN else if Reqb a 0 then NInf else Fin (ln a)
  end.

(** Comparisons: every comparison with [nan] is false. *)
Definition fltb (x y : float) : bool :=
  match x, y with
  | NaN, _ | _, NaN => false
  | _, NInf | PInf, _ => false
  | NInf, _ | _, PInf => true
  | Fin a, Fin b => Rltb a b
  end.

Definition fleb (x y : float) : bool :=
  match x, y with
  | NaN, _ | _, NaN => false
  | NInf, _ | _, PInf => true
  | _, NInf | PInf, _ => false
  | Fin a, Fin b => Rleb a b
  end.

Definition fgtb (x y : float) : bool := fltb y x.
Definition fgeb (x y : float) : bool := fleb y x.

Notation "x <? y" := (fltb x y) : np_scope.
Notation "x <=? y" := (fleb x y) : np_scope.
Notation "x >? y" := (fgtb x y) (at level 70) : np_scope.
Notation "x >=? y" := (fgeb x y) (at level 70) : np_scope.

(** [np.isfinite], [np.isnan] *)
Definition isfinite (x : float) : bool :=
  match x with Fin _ => true | _ => false end.

Definition isnan (x : float) : bool :=
  match x with NaN => true | _ => false end.

(** A boolean used as a number, as in [pw * msk]. *)
Definition of_bool (b : bool) : float := if b then Fin 1 else Fin 0.

(** Is the real [y] an integer, and if so is it odd? *)
Definition is_int (y : R) : bool := Reqb y (IZR (Int_part y)).
Definition is_odd_int (y : R) : bool := is_int y && Z.odd (Int_part y).

(** [x ** y] on float64 operands: the C99 [pow]. *)
Definition fpow (x y : float) : float :=
  match x, y with
  | _, Fin b =>
      if Reqb b 0 then Fin 1 else
      match x with
      | NaN => NaN
      | PInf => if Rltb b 0 then Fin 0 else PInf
      | NInf => if Rltb b 0 then Fin 0
                else if is_odd_int b then NInf else PInf
      | Fin a =>
          if Rltb 0 a then Fin (Rpower a b)
          else if Reqb a 0 then (if Rltb b 0 then PInf else Fin 0)
          else if is_int b
               then Fin (if Z.odd (Int_part b) then - Rpower (- a) b
                         else Rpower (- a) b)
               else NaN
      end
  | Fin a, NaN => if Reqb a 1 then Fin 1 else NaN
  | _, NaN => NaN
  | NaN, _ => NaN
  | Fin a, PInf =>
      if Reqb (Rabs a) 1 then Fin 1
      else if Rltb (Rabs a) 1 then Fin 0 else PInf
  | Fin a, NInf =>
      if Reqb (Rabs a) 1 then Fin 1
      else if Rltb (Rabs a) 1 then PInf else Fin 0
  | _, PInf => PInf
  | _, NInf => Fin 0
  end.

Notation "x ** y" := (fpow x y) (at level 30, right associativity) : np_scope.

(** ** Orbital utilities *)

Definition get_duration (period aor e : float) : float :=
  (Fin 0.25 * period * fsqrt (Fin 1 - e ** Fin 2) / aor)%np.

Definition Go4pi : float :=
  (Fin 2945.4625385377644 / (Fin 4 * Fin PI * Fin PI))%np.

Definition get_a (period mstar : float) : float :=
  ((Go4pi * period * period * mstar) ** (Fin 1.0 / Fin 3))%np.

Definition get_delta_with (k c s : float) : float :=
  let delta_max := (k * k * (c + s * k))%np in
  (Fin 0.84 * delta_max)%np.

Definition get_delta (k : float) : float :=
  get_delta_with k (Fin 1.0874) (Fin 1.0187).

(** ** Library calls

    Exceptions are modelled by [option]: [None] is a raised [ValueError]. *)

Definition bind {A B : Type} (m : option A) (k : A -> option B) : option B :=
  match m with Some a => k a | None => None end.

Notation "x <- m ;; k" := (bind m (fun x => k))
  (at level 61, m at next level, right associativity).

Definition feqb (x y : float) : bool :=
  match x, y with
  | Fin a, Fin b => Reqb a b
  | PInf, PInf | NInf, NInf => true
  | _, _ => false
  end.

(** The interpolation step of [np.interp] once the sample point [x] is known
    to be at or right of the knot [(x0, y0)]: walk to the segment
    [x0 <= x < x1] and interpolate there; right of the last knot the last
    value is returned (clamping). *)
Fixpoint interp_seg (x x0 : R) (y0 : float) (pts : list (R * float)) : float :=
  match pts with
  | [] => y0
  | (x1, y1) :: rest =>
      if Rltb x x1 then
        if Reqb x0 x then y0
        else
          let slope := ((y1 - y0) / Fin (x1 - x0))%np in
          let r := (slope * Fin (x - x0) + y0)%np in
          if isnan r then
            let r' := (slope * Fin (x - x1) + y1)%np in
            if isnan r' && feqb y0 y1 then y0 else r'
          else r
      else interp_seg x x1 y1 rest
  end.

(** [np.interp(x, xp, fp)] for increasing knots [xp]: piecewise linear between
    the knots, clamped to [fp[0]] on the left and [fp[-1]] on the right.
    An empty table or tables of different lengths raise [ValueError].  A
    one-point table returns its value for every [x]; otherwise a [nan]
    sample point gives [nan]. *)
Definition np_interp (x : float) (xp : list R) (fp : list float)
  : option float :=
  if negb (Nat.eqb (length xp) (length fp)) then None else
  match combine xp fp with
  | [] => None
  | [(_, y0)] => Some y0
  | (x0, y0) :: rest =>
      Some match x with
           | NaN => NaN
           | NInf => y0
           | PInf => last (map snd rest) y0
           | Fin r => if Rltb r x0 then y0 else interp_seg r x0 y0 rest
           end
  end.

(** ** Completeness model *)

(** A row of the stellar table: the columns the model reads.  [cdpp] and
    [mesthres] are the row's [rrmscdpp*] and [mesthres*] columns, in column
    order. *)
Record Star : Type := {
  radius : float;
  mass : float;
  dataspan : float;
  dutycycle : float;
  cdpp : list float;
  mesthres : list float
}.

Section Completeness.

(** [scipy.stats.gamma(a, loc, scale).cdf], taken as given. *)
Variable gamma_cdf : R -> R -> R -> float -> float.

(** The durations parsed from the column names of the stellar table. *)
Variable cdpp_vals : list R.
Variable mesthres_vals : list R.

Definition get_mes_with (star : Star) (period rp tau re : float)
  : option float :=
  sigma <- np_interp tau cdpp_vals (cdpp star) ;;
  let k := (rp * re / radius star)%np in
  let snr := (get_delta k * Fin 1e6 / sigma)%np in
  let ntrn := (dataspan star * dutycycle star / period)%np in
  Some (snr * fsqrt ntrn)%np.

Definition get_mes (star : Star) (period rp tau : float) : option float :=
  get_mes_with star period rp tau (Fin 0.009171).

Definition pgam_cdf : float -> float := gamma_cdf 4.65 0.0 0.98.

Definition get_pdet (star : Star) (aor period rp e : float) : option float :=
  let tau := (get_duration period aor e * Fin 24.0)%np in
  mes <- get_mes star period rp tau ;;
  mest <- np_interp tau mesthres_vals (mesthres star) ;;
  let x := (mes - Fin 4.1 - (mest - Fin 7.1))%np in
  Some (pgam_cdf x).

Definition get_pwin (star : Star) (period : float) : float :=
  let M := (dataspan star / period)%np in
  let f := dutycycle star in
  let omf := (Fin 1.0 - f)%np in
  let pw := (Fin 1
             - omf ** M
             - M * f * omf ** (M - Fin 1)
             - Fin 0.5 * M * (M - Fin 1) * f * f * omf ** (M - Fin 2))%np in
  let msk := (pw >=? Fin 0.0)%np && (M >=? Fin 2.0)%np in
  (pw * of_bool msk)%np.

Definition get_pgeom (aor e : float) : float :=
  (Fin 1.0 / (aor * (Fin 1 - e * e)) * of_bool (aor >? Fin 1.0))%np.

Definition get_completeness (star : Star) (period rp e : float)
    (with_geom : bool) : option float :=
  let aor := (get_a period (mass star) / radius star)%np in
  pdet <- get_pdet star aor period rp e ;;
  let pwin := get_pwin star period in
  if negb with_geom then Some (pdet * pwin)%np
  else
    let pgeom := get_pgeom aor e in
    Some (pdet * pwin * pgeom)%np.

End Completeness.

(** ** Reference formulas and sample inputs *)

(** The binomial window function as the model documents it (Equation (6)),
    in terms of the expected number of transits [M] and the duty cycle [f]. *)
Definition window_raw (M f : float) : float :=
  (Fin 1
   - (Fin 1 - f) ** M
   - M * f * (Fin 1 - f) ** (M - Fin 1)
   - Fin 0.5 * M * (M - Fin 1) * f ** Fin 2 * (Fin 1 - f) ** (M - Fin 2))%np.

(** The transit durations of the threshold columns ([thresh] in the
    notebook). *)
Definition thresh : list R :=
  [1.5; 2.0; 2.5; 3.0; 3.5; 4.5; 5.0; 6.0; 7.5; 9.0; 10.5; 12.0; 12.5; 15.0].

(** A Sun-like star with a flat 30 ppm noise curve and a flat 7.1 threshold
    curve, observed over [T] days at duty cycle [f]. *)
Definition flat_star (T f : R) : Star := {|
  radius := Fin 1;
  mass := Fin 1;
  dataspan := Fin T;
  dutycycle := Fin f;
  cdpp := repeat (Fin 30) 14;
  mesthres := repeat (Fin 7.1) 14
|}.

(** Knots in strictly increasing order, as [np.interp] expects them. *)
Fixpoint increasing (xs : list R) : Prop :=
  match xs with
  | x0 :: ((x1 :: _) as tl) => x0 < x1 /\ increasing tl
  | _ => True
  end.

(** Linear interpolation in a table of knots, clamped at the end points:
    left of the first knot the first value, right of the last knot the last
    value, and between two neighbouring knots the chord through them. *)
Inductive clamped_lerp : list (R * R) -> R -> R -> Prop :=
| lerp_left (x0 y0 : R) (rest : list (R * R)) (x : R) :
    x <= x0 -> clamped_lerp ((x0, y0) :: rest) x y0
| lerp_right (pre : list (R * R)) (xn yn x : R) :
    xn <= x -> clamped_lerp (pre ++ [(xn, yn)]) x yn
| lerp_chord (pre post : list (R * R)) (x0 y0 x1 y1 x : R) :
    x0 < x1 -> x0 <= x <= x1 ->
    clamped_lerp (pre ++ (x0, y0) :: (x1, y1) :: post) x
                 (y0 + (y1 - y0) / (x1 - x0) * (x - x0)).

(** A table of finite values as the array [np.interp] receives. *)
Definition lift_knot (p : R * R) : R * float := (fst p, Fin (snd p)).

(** A star's curve [fp] over the knots [xp] is well formed when the knots
    increase, there is at least one, and the values are the finite [ys]. *)
Definition curve_ok (xp : list R) (fp : list float) (ys : list R) : Prop :=
  increasing xp /\ xp <> [] /\ length xp = length ys /\ fp = map Fin ys.

(** The gamma distribution function at shape 1 (the exponential law), the one
    member of the family with an elementary closed form.  It stands in for
    [scipy.stats.gamma] wherever a concrete distribution function is needed to
    instantiate a statement. *)
Definition expo_cdf (a loc scale : R) (x : float) : float :=
  match x with
  | NaN => NaN
  | PInf => Fin 1
  | NInf => Fin 0
  | Fin r => if Rleb r loc then Fin 0
             else Fin (1 - exp (- ((r - loc) / scale)))
  end.

(** The data-model invariant of a star: finite positive radius and mass, a
    finite non-negative data span, a duty cycle in [[0,1]], a noise curve of
    finite positive values and a threshold curve of finite values. *)
Definition star_ok (cdpp_vals mesthres_vals : list R) (star : Star) : Prop :=
  exists r m T f noise thr,
    radius star = Fin r /\ 0 < r /\
    mass star = Fin m /\ 0 < m /\
    dataspan star = Fin T /\ 0 <= T /\
    dutycycle star = Fin f /\ 0 <= f <= 1 /\
    curve_ok cdpp_vals (cdpp star) noise /\
    Forall (fun y => 0 < y) noise /\
    curve_ok mesthres_vals (mesthres star) thr.

(** What is assumed of a distribution function: on finite arguments it takes
    finite values in [[0,1]] and is non-decreasing. *)
Definition is_cdf (F : float -> float) : Prop :=
  (forall x : R, exists p, F (Fin x) = Fin p /\ 0 <= p <= 1) /\
  (forall x y p q : R,
     x <= y -> F (Fin x) = Fin p -> F (Fin y) = Fin q -> p <= q).

(** The multiple event statistic on finite inputs: stellar radius [r], data
    span [T], duty cycle [f], period [P], interpolated noise [sigma] and
    planet radius [rp]. *)
Definition mes_real (r T f P sigma rp : R) : R :=
  let k := rp * 0.009171 / r in
  0.84 * (k * k * (1.0874 + 1.0187 * k)) * 1e6 / sigma * sqrt (T * f / P).

(** ** Population model and likelihood *)

(** numpy array operations, on lists and on lists of rows. *)
Definition zip_with {A B C : Type} (f : A -> B -> C)
    (xs : list A) (ys : list B) : list C :=
  map (fun p => f (fst p) (snd p)) (combine xs ys).

Definition arr2 : Type := list (list float).

Definition arr2_zip (f : float -> float -> float) (a b : arr2) : arr2 :=
  zip_with (zip_with f) a b.

Definition arr2_map (f : float -> float) (a : arr2) : arr2 := map (map f) a.

(** [np.sum], as a left-to-right sum in row-major order; on exact values the
    order of summation does not change the result. *)
Definition fsum (xs : list float) : float := fold_left fadd xs (Fin 0).
Definition np_sum2 (a : arr2) : float := fsum (concat a).

(** The slices [a[:-1]] and [a[1:]]. *)
Definition but_last {A : Type} (xs : list A) : list A :=
  firstn (length xs - 1) xs.
Definition from_1 {A : Type} (xs : list A) : list A := skipn 1 xs.

(** [np.diff] along the first and the second axis. *)
Definition np_diff_axis0 (a : arr2) : arr2 := arr2_zip fsub (from_1 a) a.
Definition np_diff_axis1 (a : arr2) : arr2 :=
  map (fun row => zip_with fsub (from_1 row) row) a.

(** [np.meshgrid(x, y, indexing="ij")] *)
Definition meshgrid_ij (xs ys : list float) : arr2 * arr2 :=
  (map (fun x => map (fun _ => x) ys) xs, map (fun _ => ys) xs).

Definition period_rng : float * float := (Fin 50, Fin 300).
Definition rp_rng : float * float := (Fin 0.75, Fin 2.5).

(** The parameter vector [(lnf0, beta, alpha)]. *)
Definition Theta : Type := float * float * float.

(** A double power law model for the population. *)
Definition population_model (theta : Theta) (period rp : float) : float :=
  let '(lnf0, beta, alpha) := theta in
  let v := (fexp lnf0 * Fin 1)%np in
  fold_left
    (fun v '(x, rng, n) =>
       let n1 := (n + Fin 1)%np in
       (v * (x ** n * n1 / (snd rng ** n1 - fst rng ** n1)))%np)
    [(period, period_rng, beta); (rp, rp_rng, alpha)]
    v.

Definition bounds : list (float * float) :=
  [(Fin (-5), Fin 5); (Fin (-5), Fin 5); (Fin (-5), Fin 5)].

Section Inference.

(** The grid axes, the summed completeness on the grid and the selected
    detections: the notebook's global state. *)
Variables period rp : list float.
Variable comp : arr2.
Variables koi_periods koi_rps : list float.

Definition period_grid : arr2 := fst (meshgrid_ij period rp).
Definition rp_grid : arr2 := snd (meshgrid_ij period rp).

Definition vol : arr2 :=
  arr2_zip fmul (map but_last (np_diff_axis0 period_grid))
                (but_last (np_diff_axis1 rp_grid)).

(** The ln-likelihood function. *)
Definition lnlike (theta : Theta) : float :=
  let pop := arr2_zip fmul
               (arr2_zip (population_model theta) period_grid rp_grid) comp in
  let pop := arr2_map (fmul (Fin 0.5))
               (arr2_zip fadd (map but_last (but_last pop))
                              (map from_1 (from_1 pop))) in
  let norm := np_sum2 (arr2_zip fmul pop vol) in
  let ll := (fsum (map flog (zip_with (population_model theta)
                                      koi_periods koi_rps)) - norm)%np in
  if isfinite ll then ll else NInf.

(** The loop of [lnprob] over [zip(theta, bounds)] with its early return. *)
Fixpoint lnprob_loop (theta : Theta) (items : list (float * (float * float)))
  : float :=
  match items with
  | [] => lnlike theta
  | (t, rng) :: rest =>
      if negb ((fst rng <? t)%np && (t <? snd rng)%np) then NInf
      else lnprob_loop theta rest
  end.

Definition theta_items (theta : Theta) : list float :=
  let '(lnf0, beta, alpha) := theta in [lnf0; beta; alpha].

Definition lnprob_with (bs : list (float * float)) (theta : Theta) : float :=
  lnprob_loop theta (combine (theta_items theta) bs).

Definition lnprob (theta : Theta) : float := lnprob_with bounds theta.

(** The negative ln-likelihood, for the optimizer. *)
Definition nll (theta : Theta) : float :=
  let ll := lnlike theta in
  if isfinite ll then (- ll)%np else Fin 1e15.

(** The quadrature as a sum over the grid cells [(i, j)]: the mean of the
    integrand at the two diagonal corners of the cell, times the cell volume
    computed from the grid boundaries. *)
Definition grid_integrand (theta : Theta) (i j : nat) : float :=
  (population_model theta (nth i period NaN) (nth j rp NaN)
   * nth j (nth i comp []) NaN)%np.

Definition cell_volume (i j : nat) : float :=
  ((nth (S i) period NaN - nth i period NaN)
   * (nth (S j) rp NaN - nth j rp NaN))%np.

Definition cell_quadrature (theta : Theta) : float :=
  fsum (flat_map
          (fun i =>
             map (fun j =>
                    (Fin 0.5 * (grid_integrand theta i j
                                + grid_integrand theta (S i) (S j))
                     * cell_volume i j)%np)
                 (seq 0 (length rp - 1)))
          (seq 0 (length period - 1))).

End Inference.

(** The normalized power law of one dimension: exponent [n], domain
    [[lo, hi]]. *)
Definition power_law (x n lo hi : float) : float :=
  (x ** n * (n + Fin 1) / (hi ** (n + Fin 1) - lo ** (n + Fin 1)))%np.

(** A two-dimensional array given by its entries. *)
Definition tab (rows cols : list nat) (g : nat -> nat -> float) : arr2 :=
  map (fun i => map (g i) cols) rows.

(** ** Completeness map *)

(** An array operation whose elements may raise: the first exception aborts
    the whole call. *)
Fixpoint sequence {A : Type} (xs : list (option A)) : option (list A) :=
  match xs with
  | [] => Some []
  | x :: rest =>
      v <- x ;; vs <- sequence rest ;; Some (v :: vs)
  end.

Definition vectorize2 (f : float -> float -> option float) (a b : arr2)
  : option arr2 :=
  sequence (map sequence (zip_with (zip_with f) a b)).

(** [np.zeros_like] *)
Definition zeros_like (a : arr2) : arr2 := arr2_map (fun _ => Fin 0) a.

Section Aggregator.

Variable gamma_cdf : R -> R -> R -> float -> float.
Variables cdpp_vals mesthres_vals : list R.

(** [get_completeness] called on the two grids. *)
Definition get_completeness_grid (star : Star) (period_grid rp_grid : arr2)
    (e : float) (with_geom : bool) : option arr2 :=
  vectorize2
    (fun period rp =>
       get_completeness gamma_cdf cdpp_vals mesthres_vals star period rp e
                        with_geom)
    period_grid rp_grid.

(** The loop [for _, star in stlr.iterrows(): comp += get_completeness(...)]
    from the running total [comp]. *)
Fixpoint accumulate_completeness (stlr : list Star)
    (period_grid rp_grid comp : arr2) : option arr2 :=
  match stlr with
  | [] => Some comp
  | star :: rest =>
      c <- get_completeness_grid star period_grid rp_grid (Fin 0.0) true ;;
      accumulate_completeness rest period_grid rp_grid (arr2_zip fadd comp c)
  end.

(** The completeness summed over the stellar sample, on the grid spanned by
    the axes [period] and [rp]. *)
Definition build_comp (stlr : list Star) (period rp : list float)
  : option arr2 :=
  accumulate_completeness stlr (period_grid period rp) (rp_grid period rp)
    (zeros_like (period_grid period rp)).

End Aggregator.

(** An array has [n] rows of [m] entries. *)
Definition has_shape (n m : nat) (a : arr2) : Prop :=
  length a = n /\ Forall (fun row => length row = m) a.

(** Every entry of an array satisfies [Q]. *)
Definition arr2_all (Q : float -> Prop) (a : arr2) : Prop :=
  Forall (Forall Q) a.

(** A finite number in the interval [[lo, hi]]. *)
Definition finite_in (lo hi : R) (x : float) : Prop :=
  exists v, x = Fin v /\ lo <= v <= hi.

(** ** Catalogue cuts *)

(** A row of the stellar table, with the columns that the cuts read besides
    those of the model. *)
Record StellarRow : Type := {
  kepid : Z;
  star_of : Star;
  teff : float;
  rrmscdpp07p5 : float
}.

(** The mask [m] of the G and K dwarfs with sufficient data coverage and a
    mass estimate. *)
Definition star_cut (row : StellarRow) : bool :=
  let m := (Fin 4200 <=? teff row)%np && (teff row <=? Fin 6100)%np in
  let m := m && (radius (star_of row) <=? Fin 1.15)%np in
  let m := m && (dataspan (star_of row) >? Fin 365.25 * Fin 2.0)%np in
  let m := m && (dutycycle (star_of row) >? Fin 0.6)%np in
  let m := m && (rrmscdpp07p5 row <=? Fin 1000.0)%np in
  let m := m && isfinite (mass (star_of row)) in
  m.

(** [stlr[m]] *)
Definition select_stars (stlr : list StellarRow) : list StellarRow :=
  filter star_cut stlr.

(** A row of the KOI table. *)
Record Koi : Type := {
  koi_kepid : Z;
  koi_pdisposition : string;
  koi_period : float;
  koi_prad : float
}.

(** [pd.merge(kois, stlr[["kepid"]], on="kepid", how="inner")]: each KOI once
    for every selected star with its identifier, in the order of the KOI
    table. *)
Definition merge_on_kepid (kois : list Koi) (stlr : list StellarRow)
  : list Koi :=
  flat_map
    (fun k => map (fun _ => k)
                  (filter (fun row => Z.eqb (kepid row) (koi_kepid k)) stlr))
    kois.

(** The mask of [base_kois]: candidates with a finite period and radius. *)
Definition base_koi_cut (k : Koi) : bool :=
  String.eqb (koi_pdisposition k) "CANDIDATE"
  && isfinite (koi_period k)
  && isfinite (koi_prad k).

(** The mask of the KOIs in the relevant part of parameter space. *)
Definition koi_cut (k : Koi) : bool :=
  base_koi_cut k
  && ((fst period_rng <=? koi_period k)%np
      && (koi_period k <=? snd period_rng)%np)
  && ((fst rp_rng <=? koi_prad k)%np && (koi_prad k <=? snd rp_rng)%np).

(** The KOI selection: join on the selected stars, then cut. *)
Definition select_kois (kois : list Koi) (stlr : list StellarRow)
  : list Koi :=
  filter koi_cut (merge_on_kepid kois stlr).

(** The arrays [koi_periods] and [koi_rps] of the selected KOIs. *)
Definition koi_periods_of (kois : list Koi) : list float :=
  map koi_period kois.
Definition koi_rps_of (kois : list Koi) : list float := map koi_prad kois.

(** ** Theorems *)

(** *** Reflection of the real comparisons *)

Lemma Rltb_spec (x y : R) : reflect (x < y) (Rltb x y).
Proof. unfold Rltb. destruct (Rlt_dec x y); constructor; assumption. Qed.

Lemma Rleb_spec (x y : R) : reflect (x <= y) (Rleb x y).
Proof. unfold Rleb. destruct (Rle_dec x y); constructor; assumption. Qed.

Lemma Reqb_spec (x y : R) : reflect (x = y) (Reqb x y).
Proof. unfold Reqb. destruct (Req_dec_T x y); constructor; assumption. Qed.

(** Decide every real comparison in sight and discharge the impossible
    branches by linear arithmetic. *)
Ltac rdec_step :=
  match goal with
  | |- context [Rltb ?a ?b] => destruct (Rltb_spec a b)
  | |- context [Rleb ?a ?b] => destruct (Rleb_spec a b)
  | |- context [Reqb ?a ?b] => destruct (Reqb_spec a b)
  | H : context [Rltb ?a ?b] |- _ => destruct (Rltb_spec a b)
  | H : context [Rleb ?a ?b] |- _ => destruct (Rleb_spec a b)
  | H : context [Reqb ?a ?b] |- _ => destruct (Reqb_spec a b)
  end.

Ltac rdec := repeat (rdec_step; try lra; try discriminate; simpl in * ).

Ltac nlt :=
  repeat match goal with
  | H : ~ (_ < _) |- _ => apply Rnot_lt_le in H
  | H : ~ (_ <= _) |- _ => apply Rnot_le_lt in H
  end.

Ltac zero_eq :=
  repeat match goal with
  | H1 : ?r <= 0, H2 : 0 <= ?r |- _ =>
      assert (r = 0) by lra; clear H1 H2; try subst r
  | H1 : - ?r <= 0, H2 : 0 <= - ?r |- _ =>
      assert (r = 0) by lra; clear H1 H2; try subst r
  end.

Ltac ndec :=
  repeat (rdec_step; try lra; try solve [nlt; zero_eq; nra];
          try discriminate; simpl in * ).

(** Evaluate a closed expression of model numbers. *)
Ltac fcompute := repeat (simpl; unfold inf_of_sign; rdec); try reflexivity.

Lemma Rltb_true (x y : R) : x < y -> Rltb x y = true.
Proof. intros; rdec; reflexivity. Qed.

Lemma Rltb_false (x y : R) : y <= x -> Rltb x y = false.
Proof. intros; rdec; reflexivity. Qed.

Lemma Rleb_true (x y : R) : x <= y -> Rleb x y = true.
Proof. intros; rdec; reflexivity. Qed.

Lemma Rleb_false (x y : R) : y < x -> Rleb x y = false.
Proof. intros; rdec; reflexivity. Qed.

Lemma Reqb_true (x y : R) : x = y -> Reqb x y = true.
Proof. intros; rdec; reflexivity. Qed.

Lemma Reqb_false (x y : R) : x <> y -> Reqb x y = false.
Proof. intros; rdec; try contradiction; reflexivity. Qed.

(** *** Arithmetic of the special values *)

Lemma fmul_1_r (x : float) : (x * Fin 1)%np = x.
Proof.
  destruct x; simpl; unfold inf_of_sign; rdec; try reflexivity.
  f_equal; ring.
Qed.

Lemma fmul_0_r_finite (x : float) :
  isfinite x = true -> (x * Fin 0)%np = Fin 0.
Proof.
  destruct x; simpl; try discriminate. intros _. f_equal; ring.
Qed.

Lemma fmul_0_r_nonfinite (x : float) :
  isfinite x = false -> (x * Fin 0)%np = NaN.
Proof.
  destruct x; simpl; try discriminate; intros _; try reflexivity;
    unfold inf_of_sign; rdec; reflexivity.
Qed.

Lemma fmul_nan_r (x : float) : (x * NaN)%np = NaN.
Proof. destruct x; reflexivity. Qed.

Lemma Int_part_IZR (z : Z) : Int_part (IZR z) = z.
Proof.
  unfold Int_part. rewrite <- (tech_up (IZR z) (z + 1)).
  - ring.
  - rewrite plus_IZR. lra.
  - rewrite plus_IZR. lra.
Qed.

Lemma fpow_2 (x : float) : (x ** Fin 2)%np = (x * x)%np.
Proof.
  assert (Hint : Int_part 2 = 2%Z) by apply (Int_part_IZR 2).
  assert (Hpow : forall a, 0 < a -> Rpower a 2 = a * a).
  { intros a Ha. replace 2 with (INR 2) by (simpl; lra).
    rewrite Rpower_pow by assumption. simpl. ring. }
  destruct x; simpl; unfold is_odd_int, is_int; rewrite ?Hint; simpl; rdec;
    try reflexivity.
  - now rewrite Hpow.
  - subst. f_equal. ring.
  - rewrite Hpow by lra. f_equal. ring.
Qed.

(** *** Transit depth *)

Lemma get_delta_fin (k : R) :
  get_delta (Fin k) = Fin (0.84 * (k * k * (1.0874 + 1.0187 * k))).
Proof. reflexivity. Qed.

(** C1 (as found in the code): for every finite radius ratio [k] the transit
    depth is [0.84 * k^2 * (c + s*k)] with [c = 1.0874] and [s = 1.0187]:
    the sign inside the parenthesis is plus. *)
Theorem get_delta_plus_sign (k : R) :
  get_delta (Fin k) = Fin (0.84 * k ^ 2 * (1.0874 + 1.0187 * k)).
Proof.
  rewrite get_delta_fin. f_equal. ring.
Qed.

(** C1 as written fails: at [k = 1] the depth is not
    [0.84 * k^2 * (c - s*k)]. *)
Lemma get_delta_minus_sign_fails :
  get_delta (Fin 1) <> Fin (0.84 * 1 ^ 2 * (1.0874 - 1.0187 * 1)).
Proof.
  rewrite get_delta_fin. intros H. injection H as H. lra.
Qed.

(** *** Geometric transit probability *)

Lemma get_pgeom_unfold (aor e : float) :
  get_pgeom aor e
  = (Fin 1 / (aor * (Fin 1 - e ** Fin 2)) * of_bool (aor >? Fin 1))%np.
Proof.
  unfold get_pgeom. rewrite fpow_2.
  replace 1.0 with 1 by lra. reflexivity.
Qed.

Example get_pgeom_at_2 : get_pgeom (Fin 2) (Fin 0) = Fin 0.5.
Proof.
  unfold get_pgeom. fcompute. f_equal.
  replace (2 * (1 + - (0 * 0))) with 2 by ring. lra.
Qed.

Example get_pgeom_at_half : get_pgeom (Fin 0.5) (Fin 0) = Fin 0.
Proof. unfold get_pgeom. fcompute. f_equal. lra. Qed.



(** When the quotient is finite in terms of the inputs. *)
Lemma pgeom_quotient_finite (aor e : R) :
  aor <> 0 -> e * e <> 1 ->
  isfinite (Fin 1 / (Fin aor * (Fin 1 - Fin e ** Fin 2)))%np = true.
Proof.
  intros Ha He. rewrite fpow_2. simpl.
  rewrite Reqb_false; [reflexivity|].
  intros H. apply Rmult_integral in H. destruct H; [contradiction|].
  apply He. lra.
Qed.


(** *** More arithmetic of the model numbers *)

Lemma fmul_comm (x y : float) : (x * y)%np = (y * x)%np.
Proof. destruct x, y; simpl; try reflexivity. f_equal; ring. Qed.

Lemma fmul_assoc (x y z : float) : (x * (y * z))%np = (x * y * z)%np.
Proof.
  destruct x, y, z; simpl; unfold inf_of_sign; try reflexivity;
    ndec; try reflexivity; try (f_equal; ring).
  all: try (unfold inf_of_sign; ndec; reflexivity).
Qed.

Lemma fadd_nan_r (x : float) : (x + NaN)%np = NaN.
Proof. destruct x; reflexivity. Qed.

Lemma fsub_nan_r (x : float) : (x - NaN)%np = NaN.
Proof. destruct x; reflexivity. Qed.

Lemma fltb_false_fleb (x y : float) :
  isnan x = false -> isnan y = false ->
  (x <? y)%np = false -> (y <=? x)%np = true.
Proof.
  destruct x, y; simpl; intros; try discriminate; try reflexivity.
  rdec; reflexivity.
Qed.

Lemma fltb_true_fleb (x y : float) :
  (x <? y)%np = true -> (y <=? x)%np = false.
Proof.
  destruct x, y; simpl; intros; try discriminate; try reflexivity.
  rdec; reflexivity.
Qed.

(** *** Window function *)

Lemma get_pwin_unfold (star : Star) (period : float) :
  let M := (dataspan star / period)%np in
  let raw := window_raw M (dutycycle star) in
  get_pwin star period
  = (raw * of_bool ((raw >=? Fin 0)%np && (M >=? Fin 2)%np))%np.
Proof.
  intros M raw. unfold get_pwin.
  assert (Hraw :
    (Fin 1 - (Fin 1.0 - dutycycle star) ** M
     - M * dutycycle star * (Fin 1.0 - dutycycle star) ** (M - Fin 1)
     - Fin 0.5 * M * (M - Fin 1) * dutycycle star * dutycycle star
       * (Fin 1.0 - dutycycle star) ** (M - Fin 2))%np = raw).
  { unfold raw, window_raw. rewrite fpow_2.
    replace 1.0 with 1 by lra.
    rewrite (fmul_assoc _ (dutycycle star) (dutycycle star)). reflexivity. }
  fold M. rewrite Hraw.
  replace 0.0 with 0 by lra. replace 2.0 with 2 by lra. reflexivity.
Qed.

Lemma window_raw_nan (f : float) : window_raw NaN f = NaN.
Proof.
  unfold window_raw. simpl. now rewrite fsub_nan_r.
Qed.


(** The raw expression is finite for every finite [M] and duty cycle in
    [[0,1)]. *)
Lemma window_raw_finite (M f : R) :
  0 <= f < 1 -> isfinite (window_raw (Fin M) (Fin f)) = true.
Proof.
  intros Hf. unfold window_raw. rewrite fpow_2. simpl.
  rewrite (Rltb_true 0 (1 + - f)) by lra.
  repeat match goal with
  | |- context [Reqb ?a ?b] => destruct (Reqb a b)
  end; reflexivity.
Qed.

Lemma Rpower_base_1 (y : R) : Rpower 1 y = 1.
Proof. unfold Rpower. rewrite ln_1, Rmult_0_r. apply exp_0. Qed.



(** *** Interpolation of the noise and threshold curves *)

Lemma combine_map_Fin (xp ys : list R) :
  combine xp (map Fin ys) = map lift_knot (combine xp ys).
Proof.
  revert ys. induction xp as [|x xp IH]; intros [|y ys]; simpl;
    try reflexivity.
  now rewrite IH.
Qed.

Lemma interp_seg_spec (x : R) (rest pre : list (R * R)) (x0 y0 : R) :
  x0 <= x ->
  increasing (x0 :: map fst rest) ->
  exists v,
    interp_seg x x0 (Fin y0) (map lift_knot rest) = Fin v /\
    clamped_lerp (pre ++ (x0, y0) :: rest) x v.
Proof.
  revert pre x0 y0.
  induction rest as [|[x1 y1] rest IH]; intros pre x0 y0 Hx Hinc.
  - exists y0. split; [reflexivity|]. now apply lerp_right.
  - destruct Hinc as [H01 Hinc]. simpl.
    destruct (Rltb_spec x x1) as [Hlt | Hge].
    + destruct (Reqb_spec x0 x) as [-> | Hne].
      * exists y0. split; [reflexivity|].
        replace y0 with (y0 + (y1 - y0) / (x1 - x) * (x - x)) at 2
          by (unfold Rdiv; ring).
        apply lerp_chord; lra.
      * exists (y0 + (y1 - y0) / (x1 - x0) * (x - x0)). split.
        -- rewrite (Reqb_false (x1 - x0) 0) by lra. simpl.
           f_equal. unfold Rdiv, Rminus. ring.
        -- apply lerp_chord; lra.
    + destruct (IH (pre ++ [(x0, y0)]) x1 y1) as [v [Hv Hl]].
      * lra.
      * exact Hinc.
      * exists v. split; [exact Hv|].
        rewrite <- app_assoc in Hl. exact Hl.
Qed.

(** [np.interp] on a table with increasing knots and finite values is the
    clamped linear interpolation of the table. *)
Lemma np_interp_spec (x : R) (xp ys : list R) :
  increasing xp -> xp <> [] -> length xp = length ys ->
  exists v,
    np_interp (Fin x) xp (map Fin ys) = Some (Fin v) /\
    clamped_lerp (combine xp ys) x v.
Proof.
  intros Hinc Hne Hlen. unfold np_interp.
  rewrite length_map, Hlen, Nat.eqb_refl. simpl negb. cbv iota.
  rewrite combine_map_Fin.
  destruct xp as [|x0 xp]; [congruence|].
  destruct ys as [|y0 ys]; [discriminate|].
  simpl combine. simpl map.
  destruct (combine xp ys) as [|p rest] eqn:Hc.
  - exists y0. split; [reflexivity|].
    destruct (Rle_dec x x0).
    + now apply lerp_left.
    + apply (lerp_right [] x0 y0). lra.
  - cbn [map lift_knot fst snd].
    change (lift_knot p :: map lift_knot rest)
      with (map lift_knot (p :: rest)).
    destruct (Rltb_spec x x0) as [Hlt | Hge].
    + exists y0. split; [reflexivity|]. apply lerp_left. lra.
    + destruct (interp_seg_spec x (p :: rest) [] x0 y0) as [v [Hv Hl]].
      * lra.
      * rewrite <- Hc.
        assert (Hfst : forall (a b : list R), length a = length b ->
                  map fst (combine a b) = a).
        { induction a as [|a0 a IHa]; intros [|b0 b] Hab; simpl in *;
            try reflexivity; try discriminate.
          f_equal. apply IHa. now injection Hab. }
        rewrite Hfst by (simpl in Hlen; now injection Hlen). exact Hinc.
      * exists v. split; [now rewrite Hv | exact Hl].
Qed.

(** A three-knot table, sampled between, left and right of the knots. *)
Example np_interp_between :
  np_interp (Fin 2.25) [1.5; 2.0; 2.5] [Fin 10; Fin 20; Fin 30]
  = Some (Fin 25).
Proof.
  unfold np_interp. simpl. rdec. simpl. rdec. do 2 f_equal. lra.
Qed.

Example np_interp_left :
  np_interp (Fin 1) [1.5; 2.0; 2.5] [Fin 10; Fin 20; Fin 30] = Some (Fin 10).
Proof. unfold np_interp. simpl. rdec. reflexivity. Qed.

Example np_interp_right :
  np_interp (Fin 9) [1.5; 2.0; 2.5] [Fin 10; Fin 20; Fin 30] = Some (Fin 30).
Proof. unfold np_interp. simpl. rdec. reflexivity. Qed.

Example np_interp_nan :
  np_interp NaN [1.5; 2.0; 2.5] [Fin 10; Fin 20; Fin 30] = Some NaN.
Proof. reflexivity. Qed.

Example np_interp_empty : np_interp (Fin 1) [] [] = None.
Proof. reflexivity. Qed.

(** *** Detection efficiency *)

Lemma np_interp_curve (x : R) (xp : list R) (fp : list float) (ys : list R) :
  curve_ok xp fp ys ->
  exists v,
    np_interp (Fin x) xp fp = Some (Fin v) /\ clamped_lerp (combine xp ys) x v.
Proof.
  intros (Hinc & Hne & Hlen & ->). now apply np_interp_spec.
Qed.

(** The composition of [get_pdet], for every star and all arguments, in terms
    of the two interpolated values. *)
Lemma get_pdet_formula
    (gamma_cdf : R -> R -> R -> float -> float)
    (cdpp_vals mesthres_vals : list R) (star : Star)
    (aor period rp e sigma mest : float) :
  let tau := (get_duration period aor e * Fin 24)%np in
  np_interp tau cdpp_vals (cdpp star) = Some sigma ->
  np_interp tau mesthres_vals (mesthres star) = Some mest ->
  get_pdet gamma_cdf cdpp_vals mesthres_vals star aor period rp e
  = Some (gamma_cdf 4.65 0 0.98
            (get_delta (rp * Fin 0.009171 / radius star) * Fin 1e6 / sigma
             * fsqrt (dataspan star * dutycycle star / period)
             - Fin 4.1 - (mest - Fin 7.1))%np).
Proof.
  intros tau Hs Hm. unfold get_pdet, get_mes, get_mes_with, pgam_cdf.
  replace 24.0 with 24 by lra. fold tau. rewrite Hs. simpl bind.
  rewrite Hm. simpl bind. replace 0.0 with 0 by lra. reflexivity.
Qed.

(** C5: for a star with well-formed curves and a finite transit duration
    [tau], the detection efficiency is the gamma distribution function of
    shape 4.65, location 0 and scale 0.98 at
    [MES - 4.1 - (MES_threshold - 7.1)], where
    [MES = depth_ppm / noise_ppm * sqrt(numTransits)],
    [numTransits = dataspan * dutycycle / period],
    [k = rp * 0.009171 / radius], and the noise and the threshold are the
    clamped linear interpolations of the star's curves at [tau]. *)
Theorem get_pdet_spec
    (gamma_cdf : R -> R -> R -> float -> float)
    (cdpp_vals mesthres_vals : list R) (star : Star) (noise thr : list R)
    (aor period rp e : float) (tau : R) :
  curve_ok cdpp_vals (cdpp star) noise ->
  curve_ok mesthres_vals (mesthres star) thr ->
  (get_duration period aor e * Fin 24)%np = Fin tau ->
  exists noise_ppm mes_threshold : R,
    clamped_lerp (combine cdpp_vals noise) tau noise_ppm /\
    clamped_lerp (combine mesthres_vals thr) tau mes_threshold /\
    let k := (rp * Fin 0.009171 / radius star)%np in
    let depth_ppm := (get_delta k * Fin 1e6)%np in
    let numTransits := (dataspan star * dutycycle star / period)%np in
    let MES := (depth_ppm / Fin noise_ppm * fsqrt numTransits)%np in
    get_pdet gamma_cdf cdpp_vals mesthres_vals star aor period rp e
    = Some (gamma_cdf 4.65 0 0.98
              (MES - Fin 4.1 - (Fin mes_threshold - Fin 7.1))%np).
Proof.
  intros Hn Ht Htau.
  destruct (np_interp_curve tau _ _ _ Hn) as [sigma [Hs Hsl]].
  destruct (np_interp_curve tau _ _ _ Ht) as [mest [Hm Hml]].
  exists sigma, mest. split; [exact Hsl|]. split; [exact Hml|].
  cbv zeta. apply get_pdet_formula; cbv zeta; rewrite Htau; assumption.
Qed.

Lemma thresh_increasing : increasing thresh.
Proof. unfold thresh. simpl. repeat split; lra. Qed.

Lemma flat_star_cdpp_ok (T f : R) :
  curve_ok thresh (cdpp (flat_star T f)) (repeat 30 14).
Proof.
  repeat split; try apply thresh_increasing; try lra.
  discriminate.
Qed.

Lemma flat_star_mesthres_ok (T f : R) :
  curve_ok thresh (mesthres (flat_star T f)) (repeat 7.1 14).
Proof.
  repeat split; try apply thresh_increasing; try lra.
  discriminate.
Qed.

Lemma get_duration_circular (period aor : R) :
  aor <> 0 ->
  (get_duration (Fin period) (Fin aor) (Fin 0) * Fin 24)%np
  = Fin (0.25 * period / aor * 24).
Proof.
  intros Ha. unfold get_duration. rewrite fpow_2. simpl.
  rewrite Rltb_false by lra. simpl.
  rewrite (Reqb_false aor 0) by exact Ha.
  simpl. f_equal. replace (1 + - (0 * 0)) with 1 by ring.
  rewrite sqrt_1. field. exact Ha.
Qed.

Lemma get_pdet_spec_witness :
  exists noise_ppm mes_threshold : R,
    clamped_lerp (combine thresh (repeat 30 14)) (0.25 * 365.25 / 200 * 24)
                 noise_ppm /\
    clamped_lerp (combine thresh (repeat 7.1 14)) (0.25 * 365.25 / 200 * 24)
                 mes_threshold /\
    get_pdet expo_cdf thresh thresh (flat_star 1460 0.84)
             (Fin 200) (Fin 365.25) (Fin 1) (Fin 0)
    = Some (expo_cdf 4.65 0 0.98
              (get_delta (Fin 1 * Fin 0.009171 / Fin 1) * Fin 1e6
               / Fin noise_ppm
               * fsqrt (Fin 1460 * Fin 0.84 / Fin 365.25)
               - Fin 4.1 - (Fin mes_threshold - Fin 7.1))%np).
Proof.
  apply (get_pdet_spec expo_cdf thresh thresh (flat_star 1460 0.84)
           (repeat 30 14) (repeat 7.1 14)
           (Fin 200) (Fin 365.25) (Fin 1) (Fin 0)).
  - apply flat_star_cdpp_ok.
  - apply flat_star_mesthres_ok.
  - apply get_duration_circular. lra.
Defined.

(** *** Propagation of [nan] *)

Lemma np_interp_some (x : float) (xp : list R) (fp : list float) :
  xp <> [] -> length xp = length fp -> exists v, np_interp x xp fp = Some v.
Proof.
  intros Hne Hlen. unfold np_interp. rewrite Hlen, Nat.eqb_refl. simpl.
  destruct xp as [|x0 xp]; [congruence|].
  destruct fp as [|y0 fp]; [discriminate|]. simpl.
  destruct (combine xp fp); eauto.
Qed.

Lemma fdiv_nan_r (x : float) : (x / NaN)%np = NaN.
Proof. destruct x; reflexivity. Qed.

Lemma get_pwin_nan_period (star : Star) : get_pwin star NaN = NaN.
Proof.
  rewrite get_pwin_unfold. rewrite fdiv_nan_r, window_raw_nan. reflexivity.
Qed.

Section NanPropagation.

Variable gamma_cdf : R -> R -> R -> float -> float.
Variables cdpp_vals mesthres_vals : list R.
Variable star : Star.

Hypothesis cdf_nan : pgam_cdf gamma_cdf NaN = NaN.
Hypothesis cdpp_nonempty : cdpp_vals <> [].
Hypothesis cdpp_length : length cdpp_vals = length (cdpp star).
Hypothesis mesthres_nonempty : mesthres_vals <> [].
Hypothesis mesthres_length : length mesthres_vals = length (mesthres star).

Lemma get_pdet_some (aor period rp e : float) :
  exists p, get_pdet gamma_cdf cdpp_vals mesthres_vals star aor period rp e
            = Some p.
Proof.
  unfold get_pdet, get_mes, get_mes_with.
  destruct (np_interp_some (get_duration period aor e * Fin 24.0)%np
              cdpp_vals (cdpp star)) as [s ->]; auto.
  destruct (np_interp_some (get_duration period aor e * Fin 24.0)%np
              mesthres_vals (mesthres star)) as [m ->]; auto.
  simpl. eauto.
Qed.

Lemma get_pdet_nan_ratio (aor period rp e : float) :
  (rp * Fin 0.009171 / radius star)%np = NaN ->
  get_pdet gamma_cdf cdpp_vals mesthres_vals star aor period rp e = Some NaN.
Proof.
  intros Hk. unfold get_pdet, get_mes, get_mes_with.
  destruct (np_interp_some (get_duration period aor e * Fin 24.0)%np
              cdpp_vals (cdpp star)) as [s ->]; auto.
  destruct (np_interp_some (get_duration period aor e * Fin 24.0)%np
              mesthres_vals (mesthres star)) as [m ->]; auto.
  simpl. rewrite Hk. simpl. now rewrite cdf_nan.
Qed.

Lemma get_completeness_nan_period (rp e : float) (with_geom : bool) :
  get_completeness gamma_cdf cdpp_vals mesthres_vals star NaN rp e with_geom
  = Some NaN.
Proof.
  unfold get_completeness.
  destruct (get_pdet_some (get_a NaN (mass star) / radius star)%np
              NaN rp e) as [p ->].
  simpl bind. rewrite get_pwin_nan_period, fmul_nan_r.
  destruct with_geom; reflexivity.
Qed.

Lemma get_completeness_nan (period rp e : float) (with_geom : bool) :
  isnan period || isnan (radius star) || isnan rp = true ->
  get_completeness gamma_cdf cdpp_vals mesthres_vals star period rp e
                   with_geom = Some NaN.
Proof.
  intros H.
  apply orb_true_iff in H as [H | H]; [apply orb_true_iff in H as [H | H]|].
  - destruct period; try discriminate. apply get_completeness_nan_period.
  - unfold get_completeness.
    destruct (radius star) eqn:Hr; try discriminate.
    rewrite get_pdet_nan_ratio by (rewrite Hr; apply fdiv_nan_r).
    destruct with_geom; reflexivity.
  - unfold get_completeness. destruct rp; try discriminate.
    rewrite get_pdet_nan_ratio by reflexivity.
    destruct with_geom; reflexivity.
Qed.

End NanPropagation.

(** C2 (amended): inputs that are not finite are propagated, not masked.
    For a star whose curve tables are present, a [nan] period, stellar radius
    or planet radius makes the detection probability [nan]; no exception is
    raised. *)
Theorem nonfinite_input_gives_nan
    (gamma_cdf : R -> R -> R -> float -> float)
    (cdpp_vals mesthres_vals : list R) (star : Star)
    (period rp e : float) (with_geom : bool) :
  pgam_cdf gamma_cdf NaN = NaN ->
  cdpp_vals <> [] -> length cdpp_vals = length (cdpp star) ->
  mesthres_vals <> [] -> length mesthres_vals = length (mesthres star) ->
  isnan period || isnan (radius star) || isnan rp = true ->
  get_completeness gamma_cdf cdpp_vals mesthres_vals star period rp e
                   with_geom = Some NaN.
Proof.
  intros. now apply get_completeness_nan.
Qed.

Lemma nonfinite_input_gives_nan_witness :
  get_completeness expo_cdf thresh thresh (flat_star 1460 0.84)
                   (Fin 365.25) NaN (Fin 0) true = Some NaN.
Proof.
  apply (nonfinite_input_gives_nan expo_cdf thresh thresh
           (flat_star 1460 0.84) (Fin 365.25) NaN (Fin 0) true);
    try reflexivity; discriminate.
Defined.

(** C2 as written fails: at a [nan] period the detection probability of the
    sample star is [nan], not zero, whatever the distribution function. *)
Lemma nan_period_is_not_masked :
  isfinite NaN = false /\
  (forall gamma_cdf,
     get_completeness gamma_cdf thresh thresh (flat_star 1460 0.84)
                      NaN (Fin 1) (Fin 0) false = Some NaN) /\
  Some NaN <> Some (Fin 0).
Proof.
  split; [reflexivity|]. split; [|discriminate].
  intros gamma_cdf. apply get_completeness_nan_period;
    try reflexivity; discriminate.
Qed.

(** *** The model on well-formed stars *)

Lemma clamped_lerp_pos (pts : list (R * R)) (x v : R) :
  Forall (fun p => 0 < snd p) pts -> clamped_lerp pts x v -> 0 < v.
Proof.
  intros Hall Hl. destruct Hl as [x0 y0 rest x Hx | pre xn yn x Hx
    | pre post x0 y0 x1 y1 x H01 Hx].
  - now inversion Hall.
  - apply Forall_app in Hall as [_ Hall]. now inversion Hall.
  - apply Forall_app in Hall as [_ Hall].
    inversion Hall as [|? ? Hy0 Hall']. inversion Hall' as [|? ? Hy1 _].
    simpl in *. subst.
    set (t := (x - x0) / (x1 - x0)).
    assert (Ht : 0 <= t <= 1).
    { unfold t. split.
      - apply Rmult_le_pos; [lra|]. left. apply Rinv_0_lt_compat. lra.
      - apply (Rmult_le_reg_r (x1 - x0)); [lra|].
        unfold Rdiv. rewrite Rmult_assoc, Rinv_l by lra. lra. }
    replace (y0 + (y1 - y0) / (x1 - x0) * (x - x0))
      with ((1 - t) * y0 + t * y1) by (unfold t; field; lra).
    destruct (Req_dec t 0) as [-> | Hne]; [lra|].
    assert (0 < t * y1) by (apply Rmult_lt_0_compat; lra).
    assert (0 <= (1 - t) * y0) by (apply Rmult_le_pos; lra).
    lra.
Qed.

Lemma combine_snd_pos (xs ys : list R) :
  Forall (fun y => 0 < y) ys ->
  Forall (fun p : R * R => 0 < snd p) (combine xs ys).
Proof.
  intros Hall. revert xs. induction Hall as [|y ys Hy Hall IH];
    intros [|x xs]; simpl; constructor; auto.
Qed.

Lemma Go4pi_pos : exists g, Go4pi = Fin g /\ 0 < g.
Proof.
  assert (Hpi := PI_RGT_0).
  assert (H4 : 0 < 4 * PI * PI).
  { apply Rmult_lt_0_compat; lra. }
  exists (2945.4625385377644 / (4 * PI * PI)). split.
  - unfold Go4pi. simpl. now rewrite Reqb_false by lra.
  - apply Rdiv_lt_0_compat; lra.
Qed.

Lemma get_a_pos (P m : R) :
  0 < P -> 0 < m -> exists a, get_a (Fin P) (Fin m) = Fin a /\ 0 < a.
Proof.
  intros HP Hm. destruct Go4pi_pos as [g [Hg Hgpos]].
  exists (Rpower (g * P * P * m) (1.0 / 3)). split.
  - unfold get_a. rewrite Hg. simpl.
    rewrite (Reqb_false 3 0) by lra.
    rewrite (Reqb_false (1.0 / 3) 0) by lra.
    rewrite Rltb_true; [reflexivity|].
    repeat apply Rmult_lt_0_compat; assumption.
  - unfold Rpower. apply exp_pos.
Qed.

Lemma get_duration_fin (P a ev : R) :
  a <> 0 -> ev * ev <= 1 ->
  (get_duration (Fin P) (Fin a) (Fin ev) * Fin 24)%np
  = Fin (0.25 * P * sqrt (1 - ev * ev) / a * 24).
Proof.
  intros Ha He. unfold get_duration. rewrite fpow_2. simpl.
  rewrite Rltb_false by lra. simpl.
  rewrite (Reqb_false a 0) by exact Ha.
  simpl. f_equal.
Qed.

Lemma fsqrt_fin (x : R) : 0 <= x -> fsqrt (Fin x) = Fin (sqrt x).
Proof. intros Hx. simpl. now rewrite Rltb_false. Qed.

Lemma fdiv_fin (x y : R) : y <> 0 -> (Fin x / Fin y)%np = Fin (x / y).
Proof. intros Hy. simpl. now rewrite Reqb_false. Qed.

Section WellFormedStar.

Variable gamma_cdf : R -> R -> R -> float -> float.
Variables cdpp_vals mesthres_vals : list R.
Variable star : Star.
Hypothesis star_inv : star_ok cdpp_vals mesthres_vals star.

(** On a well-formed star the detection efficiency is the distribution
    function at a finite argument; the interpolated noise and threshold do
    not depend on the planet radius. *)
Lemma get_pdet_finite (a P ev : R) :
  0 < a -> 0 < P -> 0 <= ev < 1 ->
  exists r T f sigma mest,
    radius star = Fin r /\ 0 < r /\
    dataspan star = Fin T /\ 0 <= T /\
    dutycycle star = Fin f /\ 0 <= f <= 1 /\
    0 < sigma /\
    forall rp,
      get_pdet gamma_cdf cdpp_vals mesthres_vals star
               (Fin a) (Fin P) (Fin rp) (Fin ev)
      = Some (pgam_cdf gamma_cdf
                (Fin (mes_real r T f P sigma rp - 4.1 - (mest - 7.1)))).
Proof.
  intros Ha HP He.
  destruct star_inv as (r & m & T & f & noise & thr & Hr & Hrpos & _ & _
                        & HT & HTpos & Hf & Hfr & Hn & Hnpos & Ht).
  assert (Htau : (get_duration (Fin P) (Fin a) (Fin ev) * Fin 24)%np
                 = Fin (0.25 * P * sqrt (1 - ev * ev) / a * 24)).
  { apply get_duration_fin; nra. }
  destruct (np_interp_curve (0.25 * P * sqrt (1 - ev * ev) / a * 24)
              _ _ _ Hn) as [sigma [Hs Hsl]].
  destruct (np_interp_curve (0.25 * P * sqrt (1 - ev * ev) / a * 24)
              _ _ _ Ht) as [mest [Hm _]].
  assert (Hsig : 0 < sigma).
  { eapply clamped_lerp_pos; [|exact Hsl]. now apply combine_snd_pos. }
  exists r, T, f, sigma, mest.
  repeat (split; [assumption|]).
  intros rp. unfold get_pdet, get_mes, get_mes_with.
  replace 24.0 with 24 by lra. rewrite Htau, Hs. simpl bind. rewrite Hm.
  simpl bind. rewrite Hr, HT, Hf. do 2 f_equal.
  rewrite (Reqb_false r 0) by lra. rewrite get_delta_fin.
  change (Fin T * Fin f)%np with (Fin (T * f)).
  rewrite (fdiv_fin _ P) by lra.
  rewrite fsqrt_fin.
  2:{ apply Rmult_le_pos; [apply Rmult_le_pos; lra|].
      left. apply Rinv_0_lt_compat. lra. }
  simpl. rewrite (Reqb_false sigma 0) by lra. simpl. f_equal.
Qed.

End WellFormedStar.

Lemma fpow_nonneg (a b : R) :
  0 <= a -> 0 < a \/ 0 <= b ->
  exists p, (Fin a ** Fin b)%np = Fin p /\ 0 <= p.
Proof.
  intros Ha Hab. simpl.
  destruct (Reqb_spec b 0) as [Hb | Hb].
  - exists 1. split; [reflexivity | lra].
  - destruct (Rltb_spec 0 a) as [Hpos | Hnpos].
    + exists (Rpower a b). split; [reflexivity|].
      left. unfold Rpower. apply exp_pos.
    + assert (a = 0) by lra. subst a.
      rewrite Reqb_true by reflexivity.
      rewrite Rltb_false by (destruct Hab; lra).
      exists 0. split; [reflexivity | lra].
Qed.

(** The window function of a star with a duty cycle in [[0,1]] lies in
    [[0,1]], as long as the duty cycle is below [1] or at least two transits
    are expected. *)
Lemma get_pwin_range (star : Star) (T f P : R) :
  dataspan star = Fin T -> dutycycle star = Fin f ->
  0 <= f <= 1 -> P <> 0 -> f < 1 \/ 2 <= T / P ->
  exists w, get_pwin star (Fin P) = Fin w /\ 0 <= w <= 1.
Proof.
  intros HT Hf Hfr HP Hdom. unfold get_pwin. rewrite HT, Hf.
  rewrite (fdiv_fin T P) by exact HP.
  set (M := T / P) in *. clearbody M.
  change (Fin 1.0 - Fin f)%np with (Fin (1.0 + - f)).
  change (Fin M - Fin 1)%np with (Fin (M + - (1))).
  change (Fin M - Fin 2)%np with (Fin (M + - (2))).
  destruct (fpow_nonneg (1.0 + - f) M) as [p1 [-> Hp1]];
    [lra | destruct Hdom; [left | right]; lra |].
  destruct (fpow_nonneg (1.0 + - f) (M + - (1))) as [p2 [-> Hp2]];
    [lra | destruct Hdom; [left | right]; lra |].
  destruct (fpow_nonneg (1.0 + - f) (M + - (2))) as [p3 [-> Hp3]];
    [lra | destruct Hdom; [left | right]; lra |].
  simpl.
  destruct (Rleb_spec 2.0 M) as [HM | HM];
    [|rewrite andb_false_r; simpl; eexists; split; [reflexivity|lra]].
  match goal with
  | |- context [Rleb 0.0 ?raw] =>
      destruct (Rleb_spec 0.0 raw) as [Hraw | Hraw]
  end; simpl; eexists; (split; [reflexivity|]); [|lra].
  assert (H2 : 0 <= M * f * p2).
  { repeat apply Rmult_le_pos; lra. }
  assert (H3 : 0 <= 0.5 * M * (M + - (1)) * f * f * p3).
  { assert (Ha : 0 <= M * (M + - (1))) by nra.
    assert (Hb : 0 <= f * f * p3) by (apply Rmult_le_pos; nra).
    replace (0.5 * M * (M + - (1)) * f * f * p3)
      with (0.5 * (M * (M + - (1)) * (f * f * p3))) by ring.
    apply Rmult_le_pos; [lra|]. now apply Rmult_le_pos. }
  lra.
Qed.


Lemma exp_neg_range (t : R) : 0 <= t -> 0 < exp (- t) <= 1.
Proof.
  intros Ht. split; [apply exp_pos|].
  rewrite <- exp_0. destruct (Req_dec t 0) as [-> | Hne].
  - rewrite Ropp_0. lra.
  - left. apply exp_increasing. lra.
Qed.

Lemma expo_cdf_is_cdf (a loc scale : R) :
  0 < scale -> is_cdf (expo_cdf a loc scale).
Proof.
  intros Hs. split.
  - intros x. simpl. destruct (Rleb_spec x loc) as [Hle | Hgt].
    + exists 0. split; [reflexivity | lra].
    + eexists. split; [reflexivity|].
      assert (Ht : 0 <= (x - loc) / scale).
      { left. apply Rdiv_lt_0_compat; lra. }
      pose proof (exp_neg_range _ Ht). lra.
  - intros x y p q Hxy. simpl.
    destruct (Rleb_spec x loc) as [Hx | Hx];
      destruct (Rleb_spec y loc) as [Hy | Hy];
      intros Hp Hq; injection Hp as <-; injection Hq as <-; try lra.
    + assert (Ht : 0 <= (y - loc) / scale).
      { left. apply Rdiv_lt_0_compat; lra. }
      pose proof (exp_neg_range _ Ht). lra.
    + assert (Hd : (x - loc) / scale <= (y - loc) / scale).
      { apply Rmult_le_compat_r; [|lra].
        left. now apply Rinv_0_lt_compat. }
      destruct Hd as [Hd | Hd]; [|rewrite Hd; lra].
      assert (exp (- ((y - loc) / scale)) < exp (- ((x - loc) / scale))).
      { apply exp_increasing. lra. }
      lra.
Qed.

Lemma flat_star_ok (T f : R) :
  0 <= T -> 0 <= f <= 1 -> star_ok thresh thresh (flat_star T f).
Proof.
  intros HT Hf.
  exists 1, 1, T, f, (repeat 30 14), (repeat 7.1 14).
  repeat (split; try reflexivity; try lra;
          try apply flat_star_cdpp_ok; try apply flat_star_mesthres_ok).
  simpl. repeat constructor; lra.
Qed.


Lemma cube_root_bounds (lo hi b : R) :
  0 < lo -> 0 < hi -> lo * lo * lo <= b -> b <= hi * hi * hi ->
  lo <= Rpower b (1.0 / 3) <= hi.
Proof.
  intros Hlo Hhi Hl Hh.
  assert (Hcr : forall c, 0 < c -> Rpower (c * c * c) (1.0 / 3) = c).
  { intros c Hc. replace (c * c * c) with (c ^ 3) by ring.
    rewrite <- Rpower_pow by assumption. rewrite Rpower_mult.
    replace (INR 3 * (1.0 / 3)) with 1 by (simpl; lra).
    now apply Rpower_1. }
  assert (Hlo3 : 0 < lo * lo * lo) by (repeat apply Rmult_lt_0_compat; lra).
  split.
  - rewrite <- (Hcr lo Hlo) at 1. apply Rle_Rpower_l; lra.
  - rewrite <- (Hcr hi Hhi) at 1. apply Rle_Rpower_l; lra.
Qed.

Lemma PI_bounds : 3 < PI <= 4.
Proof. pose proof PI2_3_2. pose proof PI_4. lra. Qed.

(** The scaled semi-major axis of a 300-day orbit around a Sun-like star. *)
Lemma get_a_300_bounds :
  exists a, get_a (Fin 300) (Fin 1) = Fin a /\ 150 <= a <= 200.
Proof.
  pose proof PI_bounds as Hpi.
  assert (H4 : 36 < 4 * PI * PI <= 64) by nra.
  exists (Rpower (2945.4625385377644 / (4 * PI * PI) * 300 * 300 * 1)
                 (1.0 / 3)).
  split.
  - unfold get_a, Go4pi. simpl.
    rewrite (Reqb_false (4 * PI * PI) 0) by lra. simpl.
    rewrite (Reqb_false 3 0) by lra.
    rewrite (Reqb_false (1.0 / 3) 0) by lra.
    rewrite Rltb_true; [reflexivity|].
    assert (0 < 2945.4625385377644 / (4 * PI * PI))
      by (apply Rdiv_lt_0_compat; lra).
    nra.
  - set (D := 4 * PI * PI) in *.
    assert (Hg : 0 < 2945.4625385377644 / D)
      by (apply Rdiv_lt_0_compat; lra).
    assert (HgD : 2945.4625385377644 / D * D = 2945.4625385377644)
      by (unfold Rdiv; rewrite Rmult_assoc, Rinv_l; lra).
    set (g := 2945.4625385377644 / D) in *. clearbody g D.
    assert (g * D <= g * 64) by (apply Rmult_le_compat_l; lra).
    assert (g * 36 <= g * D) by (apply Rmult_le_compat_l; lra).
    apply cube_root_bounds; lra.
Qed.


(** *** Monotonicity in the planet radius *)

Lemma fmul_not_negative (u g : float) :
  (u <? Fin 0)%np = false -> (g <? Fin 0)%np = false ->
  (u * g <? Fin 0)%np = false.
Proof.
  destruct u, g; simpl; unfold inf_of_sign; intros; try discriminate;
    try reflexivity; ndec; reflexivity.
Qed.

Lemma fmul_mono_r (u1 u2 g : float) :
  (u1 >? u2)%np = false ->
  (u1 <? Fin 0)%np = false -> (u2 <? Fin 0)%np = false ->
  (g <? Fin 0)%np = false ->
  (u1 * g >? u2 * g)%np = false.
Proof.
  unfold fgtb.
  destruct u1, u2, g; simpl; unfold inf_of_sign; intros; try discriminate;
    try reflexivity; ndec; reflexivity.
Qed.

Lemma get_pwin_not_negative (star : Star) (period : float) :
  (get_pwin star period <? Fin 0)%np = false.
Proof.
  unfold get_pwin.
  match goal with
  | |- context [fgeb ?raw (Fin 0.0)] => generalize raw
  end.
  intros raw. destruct (fgeb (dataspan star / period) (Fin 2.0));
    rewrite ?andb_true_r, ?andb_false_r;
    destruct raw; simpl; unfold inf_of_sign; ndec; reflexivity.
Qed.

Lemma get_pgeom_not_negative (a ev : R) :
  0 < a -> 0 <= ev < 1 ->
  (get_pgeom (Fin a) (Fin ev) <? Fin 0)%np = false.
Proof.
  intros Ha He. unfold get_pgeom. simpl.
  assert (Hd : 0 < a * (1 + - (ev * ev))) by (apply Rmult_lt_0_compat; nra).
  rewrite Reqb_false by lra.
  assert (Hq : 0 < 1.0 / (a * (1 + - (ev * ev))))
    by (apply Rdiv_lt_0_compat; lra).
  destruct (Rltb 1.0 a); simpl; apply Rltb_false; nra.
Qed.

Lemma mes_real_mono (r T f P sigma rp1 rp2 : R) :
  0 < r -> 0 <= T -> 0 <= f -> 0 < P -> 0 < sigma ->
  0 <= rp1 <= rp2 ->
  mes_real r T f P sigma rp1 <= mes_real r T f P sigma rp2.
Proof.
  intros Hr HT Hf HP Hs Hrp. unfold mes_real.
  assert (Hir : 0 < / r) by now apply Rinv_0_lt_compat.
  assert (His : 0 < / sigma) by now apply Rinv_0_lt_compat.
  set (k1 := rp1 * 0.009171 / r). set (k2 := rp2 * 0.009171 / r).
  assert (Hk1 : 0 <= k1).
  { unfold k1, Rdiv. apply Rmult_le_pos; [|lra]. lra. }
  assert (Hk12 : k1 <= k2).
  { unfold k1, k2, Rdiv. apply Rmult_le_compat_r; lra. }
  assert (Hpoly : k1 * k1 * (1.0874 + 1.0187 * k1)
                  <= k2 * k2 * (1.0874 + 1.0187 * k2)).
  { apply Rmult_le_compat; try nra. }
  pose proof (sqrt_pos (T * f / P)) as Hsq.
  apply Rmult_le_compat_r; [exact Hsq|].
  unfold Rdiv. apply Rmult_le_compat_r; [lra|]. lra.
Qed.

Lemma get_pgeom_fin (a ev : R) :
  0 < a -> 0 <= ev < 1 ->
  exists g, get_pgeom (Fin a) (Fin ev) = Fin g /\ 0 <= g.
Proof.
  intros Ha He. unfold get_pgeom. simpl.
  assert (Hd : 0 < a * (1 + - (ev * ev))) by (apply Rmult_lt_0_compat; nra).
  rewrite Reqb_false by lra.
  assert (Hq : 0 < 1.0 / (a * (1 + - (ev * ev))))
    by (apply Rdiv_lt_0_compat; lra).
  destruct (Rltb 1.0 a); simpl; eexists; (split; [reflexivity|]); nra.
Qed.

(** On the part of the domain where the window function is finite the values
    are finite and ordered. *)
Lemma completeness_monotone_finite
    (gamma_cdf : R -> R -> R -> float -> float)
    (cdpp_vals mesthres_vals : list R) (star : Star)
    (P ev r1 r2 : R) (with_geom : bool) :
  is_cdf (pgam_cdf gamma_cdf) ->
  star_ok cdpp_vals mesthres_vals star ->
  0 < P -> 0 <= ev < 1 -> 0 <= r1 <= r2 ->
  (dutycycle star <? Fin 1)%np = true \/
  (dataspan star / Fin P >=? Fin 2)%np = true ->
  exists v1 v2,
    get_completeness gamma_cdf cdpp_vals mesthres_vals star
                     (Fin P) (Fin r1) (Fin ev) with_geom = Some (Fin v1) /\
    get_completeness gamma_cdf cdpp_vals mesthres_vals star
                     (Fin P) (Fin r2) (Fin ev) with_geom = Some (Fin v2) /\
    v1 <= v2.
Proof.
  intros [Hrange Hmono] Hstar HP He Hr12 Hdom.
  pose proof Hstar as (r & m & _ & _ & _ & _ & Hr & Hrpos & Hm & Hmpos & _).
  destruct (get_a_pos P m HP Hmpos) as [a [Ha Hapos]].
  assert (Har : 0 < a / r) by (apply Rdiv_lt_0_compat; assumption).
  destruct (get_pdet_finite gamma_cdf _ _ _ Hstar (a / r) P ev)
    as (r' & T & f & sigma & mest & _ & Hr' & HT & HTpos & Hf & Hfr & Hs
        & Hpdet);
    [assumption | assumption | assumption |].
  destruct (Hrange (mes_real r' T f P sigma r1 - 4.1 - (mest - 7.1)))
    as [p1 [Hp1 Hp1r]].
  destruct (Hrange (mes_real r' T f P sigma r2 - 4.1 - (mest - 7.1)))
    as [p2 [Hp2 Hp2r]].
  assert (Hp12 : p1 <= p2).
  { eapply Hmono; [|exact Hp1|exact Hp2].
    pose proof (mes_real_mono r' T f P sigma r1 r2). lra. }
  destruct (get_pwin_range star T f P HT Hf Hfr) as [w [Hw Hwr]]; [lra | |].
  { rewrite Hf, HT in Hdom. rewrite (fdiv_fin T P) in Hdom by lra.
    simpl in Hdom. destruct Hdom as [Hd | Hd]; [left | right]; rdec. }
  destruct (get_pgeom_fin (a / r) ev Har He) as [g [Hg Hgpos]].
  unfold get_completeness. rewrite Hm, Hr, Ha.
  rewrite (fdiv_fin a r) by lra. rewrite !Hpdet. simpl bind.
  rewrite Hp1, Hp2, Hw, Hg.
  destruct with_geom; simpl negb; cbv iota; do 2 eexists;
    (split; [reflexivity|]); (split; [reflexivity|]).
  - apply Rmult_le_compat_r; [lra|]. apply Rmult_le_compat_r; lra.
  - apply Rmult_le_compat_r; lra.
Qed.

(** C9: for a star satisfying the data-model invariant, a finite positive
    period and an eccentricity in [[0,1)], the detection probability never
    decreases with the planet radius: for radii [0 <= r1 <= r2] the value at
    [r1] is not greater than the value at [r2], with or without the geometric
    factor (in particular whenever [aor > 1]); and where the window function
    is finite (duty cycle below [1], or at least two expected transits) the
    value at [r1] is less than or equal to the value at [r2]. *)
Theorem completeness_monotone_in_radius
    (gamma_cdf : R -> R -> R -> float -> float)
    (cdpp_vals mesthres_vals : list R) (star : Star)
    (P ev r1 r2 : R) (with_geom : bool) :
  is_cdf (pgam_cdf gamma_cdf) ->
  star_ok cdpp_vals mesthres_vals star ->
  0 < P -> 0 <= ev < 1 -> 0 <= r1 <= r2 ->
  exists d1 d2,
    get_completeness gamma_cdf cdpp_vals mesthres_vals star
                     (Fin P) (Fin r1) (Fin ev) with_geom = Some d1 /\
    get_completeness gamma_cdf cdpp_vals mesthres_vals star
                     (Fin P) (Fin r2) (Fin ev) with_geom = Some d2 /\
    (d1 >? d2)%np = false /\
    ((dutycycle star <? Fin 1)%np = true \/
     (dataspan star / Fin P >=? Fin 2)%np = true ->
     (d1 <=? d2)%np = true).
Proof.
  intros Hcdf Hstar HP He Hr12.
  assert (Hfinite := completeness_monotone_finite gamma_cdf cdpp_vals
                       mesthres_vals star P ev r1 r2 with_geom
                       Hcdf Hstar HP He Hr12).
  destruct Hcdf as [Hrange Hmono].
  pose proof Hstar as (r & m & _ & _ & _ & _ & Hr & Hrpos & Hm & Hmpos & _).
  destruct (get_a_pos P m HP Hmpos) as [a [Ha Hapos]].
  assert (Har : 0 < a / r) by (apply Rdiv_lt_0_compat; assumption).
  destruct (get_pdet_finite gamma_cdf _ _ _ Hstar (a / r) P ev)
    as (r' & T & f & sigma & mest & _ & Hr' & _ & HT & _ & Hf & Hs & Hpdet);
    [assumption | assumption | assumption |].
  destruct (Hrange (mes_real r' T f P sigma r1 - 4.1 - (mest - 7.1)))
    as [p1 [Hp1 Hp1r]].
  destruct (Hrange (mes_real r' T f P sigma r2 - 4.1 - (mest - 7.1)))
    as [p2 [Hp2 Hp2r]].
  assert (Hp12 : p1 <= p2).
  { eapply Hmono; [|exact Hp1|exact Hp2].
    pose proof (mes_real_mono r' T f P sigma r1 r2). lra. }
  pose proof (get_pwin_not_negative star (Fin P)) as HW.
  pose proof (get_pgeom_not_negative (a / r) ev Har He) as HG.
  assert (H1 : (Fin p1 <? Fin 0)%np = false) by (apply Rltb_false; lra).
  assert (H2 : (Fin p2 <? Fin 0)%np = false) by (apply Rltb_false; lra).
  assert (H12 : (Fin p1 >? Fin p2)%np = false) by (apply Rltb_false; lra).
  assert (Hfin : forall d1 d2,
            get_completeness gamma_cdf cdpp_vals mesthres_vals star
                             (Fin P) (Fin r1) (Fin ev) with_geom = Some d1 ->
            get_completeness gamma_cdf cdpp_vals mesthres_vals star
                             (Fin P) (Fin r2) (Fin ev) with_geom = Some d2 ->
            (dutycycle star <? Fin 1)%np = true \/
            (dataspan star / Fin P >=? Fin 2)%np = true ->
            (d1 <=? d2)%np = true).
  { intros d1 d2 Hd1 Hd2 Hdom.
    destruct (Hfinite Hdom) as (v1 & v2 & Hv1 & Hv2 & Hv12).
    rewrite Hv1 in Hd1. rewrite Hv2 in Hd2.
    injection Hd1 as <-. injection Hd2 as <-.
    simpl. now apply Rleb_true. }
  revert Hfin. unfold get_completeness. rewrite Hm, Hr, Ha.
  rewrite (fdiv_fin a r) by lra. rewrite !Hpdet. simpl bind.
  rewrite Hp1, Hp2.
  destruct with_geom; simpl negb; cbv iota; intros Hfin; do 2 eexists;
    (split; [reflexivity|]); (split; [reflexivity|]);
    (split; [|now apply Hfin]).
  - apply fmul_mono_r; auto using fmul_mono_r, fmul_not_negative.
  - now apply fmul_mono_r.
Qed.

Lemma completeness_monotone_in_radius_witness :
  exists d1 d2,
    get_completeness expo_cdf thresh thresh (flat_star 1460 0.84)
                     (Fin 365.25) (Fin 1) (Fin 0) true = Some d1 /\
    get_completeness expo_cdf thresh thresh (flat_star 1460 0.84)
                     (Fin 365.25) (Fin 2) (Fin 0) true = Some d2 /\
    (d1 >? d2)%np = false /\
    ((dutycycle (flat_star 1460 0.84) <? Fin 1)%np = true \/
     (dataspan (flat_star 1460 0.84) / Fin 365.25 >=? Fin 2)%np = true ->
     (d1 <=? d2)%np = true).
Proof.
  apply (completeness_monotone_in_radius expo_cdf thresh thresh
           (flat_star 1460 0.84) 365.25 0 1 2 true).
  - apply expo_cdf_is_cdf. lra.
  - apply flat_star_ok; lra.
  - lra.
  - lra.
  - lra.
Defined.

(** *** Arrays as tables *)

Lemma list_as_map_seq {A : Type} (l : list A) (d : A) :
  l = map (fun i => nth i l d) (seq 0 (length l)).
Proof.
  induction l as [|x l IH]; [reflexivity|].
  simpl. f_equal. rewrite <- seq_shift, map_map. exact IH.
Qed.

Lemma zip_with_map_prefix {I A B C : Type} (f : A -> B -> C)
    (g1 : I -> A) (g2 : I -> B) (s t : list I) :
  zip_with f (map g1 s) (map g2 (s ++ t)) = map (fun i => f (g1 i) (g2 i)) s.
Proof.
  unfold zip_with. induction s as [|i s IH]; [reflexivity|].
  simpl. f_equal. exact IH.
Qed.

Lemma zip_with_map {I A B C : Type} (f : A -> B -> C)
    (g1 : I -> A) (g2 : I -> B) (s : list I) :
  zip_with f (map g1 s) (map g2 s) = map (fun i => f (g1 i) (g2 i)) s.
Proof.
  rewrite <- (app_nil_r s) at 2. apply zip_with_map_prefix.
Qed.

Lemma seq_split_last (n : nat) :
  seq 0 n = seq 0 (n - 1) ++ seq (n - 1) (n - (n - 1)).
Proof.
  rewrite <- seq_app. f_equal. lia.
Qed.

Lemma but_last_map_seq {A : Type} (g : nat -> A) (n : nat) :
  but_last (map g (seq 0 n)) = map g (seq 0 (n - 1)).
Proof.
  unfold but_last. rewrite length_map, length_seq, firstn_map.
  f_equal. rewrite (seq_split_last n) at 1.
  rewrite firstn_app, length_seq, Nat.sub_diag. simpl.
  rewrite app_nil_r. apply firstn_all2. rewrite length_seq. lia.
Qed.

Lemma from_1_map_seq {A : Type} (g : nat -> A) (n : nat) :
  from_1 (map g (seq 0 n)) = map (fun i => g (S i)) (seq 0 (n - 1)).
Proof.
  unfold from_1. rewrite skipn_map, skipn_seq. simpl.
  rewrite <- seq_shift, map_map. reflexivity.
Qed.

Lemma arr2_zip_tab (f : float -> float -> float) (r r' c c' : list nat)
    (g1 g2 : nat -> nat -> float) :
  arr2_zip f (tab r c g1) (tab (r ++ r') (c ++ c') g2)
  = tab r c (fun i j => f (g1 i j) (g2 i j)).
Proof.
  unfold arr2_zip, tab. rewrite zip_with_map_prefix.
  apply map_ext. intros i. apply zip_with_map_prefix.
Qed.

Lemma arr2_zip_tab_same (f : float -> float -> float) (r c : list nat)
    (g1 g2 : nat -> nat -> float) :
  arr2_zip f (tab r c g1) (tab r c g2) = tab r c (fun i j => f (g1 i j) (g2 i j)).
Proof.
  rewrite <- (app_nil_r r) at 2. rewrite <- (app_nil_r c) at 2.
  apply arr2_zip_tab.
Qed.

(** *** The likelihood as a sum over grid cells *)

Section GridAlgebra.

(** The grid axes, the completeness array and its shape. *)
Variables period rp : list float.
Variable comp : arr2.
Variables koi_periods koi_rps : list float.
Hypothesis comp_rows : length comp = length period.
Hypothesis comp_cols : Forall (fun row => length row = length rp) comp.

Let n := length period.
Let m := length rp.
Let Pd i := nth i period NaN.
Let Rp j := nth j rp NaN.
Let Cv i j := nth j (nth i comp []) NaN.

Lemma period_grid_tab :
  period_grid period rp = tab (seq 0 n) (seq 0 m) (fun i _ => Pd i).
Proof.
  unfold period_grid, meshgrid_ij, tab. simpl.
  rewrite (list_as_map_seq period NaN) at 1. rewrite map_map.
  apply map_ext. intros i.
  rewrite (list_as_map_seq rp NaN) at 1. rewrite map_map. reflexivity.
Qed.

Lemma rp_grid_tab :
  rp_grid period rp = tab (seq 0 n) (seq 0 m) (fun _ j => Rp j).
Proof.
  unfold rp_grid, meshgrid_ij, tab. simpl.
  rewrite (list_as_map_seq period NaN) at 1. rewrite map_map.
  apply map_ext. intros i. apply (list_as_map_seq rp NaN).
Qed.

Lemma comp_tab : comp = tab (seq 0 n) (seq 0 m) Cv.
Proof.
  unfold tab. rewrite (list_as_map_seq comp []) at 1.
  rewrite comp_rows. apply map_ext_in. intros i Hi.
  apply in_seq in Hi.
  assert (Hlen : length (nth i comp []) = m).
  { rewrite Forall_forall in comp_cols. apply comp_cols.
    apply nth_In. rewrite comp_rows. fold n. lia. }
  rewrite (list_as_map_seq (nth i comp []) NaN) at 1.
  now rewrite Hlen.
Qed.

Lemma but_last_tab (r : list nat) (k : nat) (g : nat -> nat -> float) :
  map but_last (tab r (seq 0 k) g) = tab r (seq 0 (k - 1)) g.
Proof.
  unfold tab. rewrite map_map. apply map_ext. intros i.
  apply but_last_map_seq.
Qed.

Lemma but_last_rows_tab (k : nat) (c : list nat) (g : nat -> nat -> float) :
  but_last (tab (seq 0 k) c g) = tab (seq 0 (k - 1)) c g.
Proof. unfold tab. apply but_last_map_seq. Qed.

Lemma from_1_rows_tab (k : nat) (c : list nat) (g : nat -> nat -> float) :
  from_1 (tab (seq 0 k) c g) = tab (seq 0 (k - 1)) c (fun i j => g (S i) j).
Proof. unfold tab. apply from_1_map_seq. Qed.

Lemma from_1_tab (r : list nat) (k : nat) (g : nat -> nat -> float) :
  map from_1 (tab r (seq 0 k) g) = tab r (seq 0 (k - 1)) (fun i j => g i (S j)).
Proof.
  unfold tab. rewrite map_map. apply map_ext. intros i.
  apply from_1_map_seq.
Qed.

Lemma np_diff_axis0_tab (k : nat) (c : list nat) (g : nat -> nat -> float) :
  np_diff_axis0 (tab (seq 0 k) c g)
  = tab (seq 0 (k - 1)) c (fun i j => (g (S i) j - g i j)%np).
Proof.
  unfold np_diff_axis0. rewrite from_1_rows_tab.
  replace (tab (seq 0 k) c g)
    with (tab (seq 0 (k - 1) ++ seq (k - 1) (k - (k - 1))) (c ++ []) g)
    by (now rewrite <- seq_split_last, app_nil_r).
  apply arr2_zip_tab.
Qed.

Lemma np_diff_axis1_tab (r : list nat) (k : nat) (g : nat -> nat -> float) :
  np_diff_axis1 (tab r (seq 0 k) g)
  = tab r (seq 0 (k - 1)) (fun i j => (g i (S j) - g i j)%np).
Proof.
  unfold np_diff_axis1, tab. rewrite map_map. apply map_ext. intros i.
  rewrite from_1_map_seq.
  replace (map (g i) (seq 0 k))
    with (map (g i) (seq 0 (k - 1) ++ seq (k - 1) (k - (k - 1))))
    by (now rewrite <- seq_split_last).
  apply zip_with_map_prefix.
Qed.

Lemma vol_tab :
  vol period rp = tab (seq 0 (n - 1)) (seq 0 (m - 1)) (cell_volume period rp).
Proof.
  unfold vol. rewrite period_grid_tab, rp_grid_tab.
  rewrite np_diff_axis0_tab, np_diff_axis1_tab.
  rewrite but_last_tab, but_last_rows_tab, arr2_zip_tab_same.
  reflexivity.
Qed.

Lemma fsum_tab (r c : list nat) (g : nat -> nat -> float) :
  np_sum2 (tab r c g) = fsum (flat_map (fun i => map (g i) c) r).
Proof.
  unfold np_sum2, tab. now rewrite flat_map_concat_map.
Qed.

Lemma norm_is_cell_quadrature (theta : Theta) :
  let pop := arr2_zip fmul
               (arr2_zip (population_model theta)
                  (period_grid period rp) (rp_grid period rp)) comp in
  let pop := arr2_map (fmul (Fin 0.5))
               (arr2_zip fadd (map but_last (but_last pop))
                              (map from_1 (from_1 pop))) in
  np_sum2 (arr2_zip fmul pop (vol period rp))
  = cell_quadrature period rp comp theta.
Proof.
  cbv zeta. rewrite period_grid_tab, rp_grid_tab, vol_tab.
  rewrite comp_tab at 1 2.
  rewrite !arr2_zip_tab_same.
  rewrite but_last_rows_tab, but_last_tab.
  rewrite from_1_rows_tab, from_1_tab.
  rewrite arr2_zip_tab_same.
  assert (Hmap : forall r c g f, arr2_map f (tab r c g) = tab r c (fun i j => f (g i j))).
  { intros. unfold arr2_map, tab. rewrite map_map. apply map_ext. intros.
    now rewrite map_map. }
  rewrite Hmap, arr2_zip_tab_same, fsum_tab.
  reflexivity.
Qed.
End GridAlgebra.



(** C4: the occurrence density is [exp(lnf0)] times the product of the two
    normalized power laws, [x^n * (n+1) / (hi^(n+1) - lo^(n+1))], of the
    period over [[50, 300]] with exponent [beta] and of the radius over
    [[0.75, 2.5]] with exponent [alpha]. *)
Theorem population_model_spec (lnf0 beta alpha period rp : float) :
  population_model (lnf0, beta, alpha) period rp
  = (fexp lnf0
     * (power_law period beta (Fin 50) (Fin 300)
        * power_law rp alpha (Fin 0.75) (Fin 2.5)))%np.
Proof.
  unfold population_model, power_law. simpl fold_left.
  rewrite fmul_1_r. cbn [fst snd period_rng rp_rng].
  now rewrite fmul_assoc.
Qed.

(** *** The prior box *)

Lemma lnprob_loop_inside (period rp : list float) (comp : arr2)
    (koi_periods koi_rps : list float) (theta : Theta)
    (items : list (float * (float * float))) :
  Forall (fun it => (fst (snd it) <? fst it)%np
                    && (fst it <? snd (snd it))%np = true) items ->
  lnprob_loop period rp comp koi_periods koi_rps theta items
  = lnlike period rp comp koi_periods koi_rps theta.
Proof.
  induction 1 as [|[t rng] items Hin _ IH]; [reflexivity|].
  simpl in *. now rewrite Hin.
Qed.

Lemma lnprob_loop_outside (period rp : list float) (comp : arr2)
    (koi_periods koi_rps : list float) (theta : Theta)
    (items : list (float * (float * float))) :
  Exists (fun it => (fst (snd it) <? fst it)%np
                    && (fst it <? snd (snd it))%np = false) items ->
  lnprob_loop period rp comp koi_periods koi_rps theta items = NInf.
Proof.
  induction 1 as [[t rng] items Hout | [t rng] items _ IH]; simpl in *.
  - now rewrite Hout.
  - rewrite IH. now destruct (negb _).
Qed.

(** C10: the ln-probability is [-inf] as soon as one of the three parameters
    is not strictly inside its interval [(-5, 5)], and is the ln-likelihood
    of the vector otherwise; it is a total function, no input raises. *)
Theorem lnprob_spec (period rp : list float) (comp : arr2)
    (koi_periods koi_rps : list float) (lnf0 beta alpha : float) :
  let inside t := (Fin (-5) <? t)%np && (t <? Fin 5)%np in
  (inside lnf0 = false \/ inside beta = false \/ inside alpha = false ->
   lnprob period rp comp koi_periods koi_rps (lnf0, beta, alpha) = NInf) /\
  (inside lnf0 = true /\ inside beta = true /\ inside alpha = true ->
   lnprob period rp comp koi_periods koi_rps (lnf0, beta, alpha)
   = lnlike period rp comp koi_periods koi_rps (lnf0, beta, alpha)).
Proof.
  intros inside. unfold lnprob, lnprob_with. split.
  - intros H. apply lnprob_loop_outside. simpl.
    destruct H as [H | [H | H]].
    + now apply Exists_cons_hd.
    + now apply Exists_cons_tl, Exists_cons_hd.
    + now apply Exists_cons_tl, Exists_cons_tl, Exists_cons_hd.
  - intros (H1 & H2 & H3). apply lnprob_loop_inside. simpl.
    repeat constructor; assumption.
Qed.

Lemma lnprob_spec_witness :
  lnprob [Fin 50; Fin 300] [Fin 0.75; Fin 2.5]
         [[Fin 1; Fin 1]; [Fin 1; Fin 1]] [Fin 100] [Fin 1]
         (Fin 7, Fin 0, Fin 0) = NInf /\
  lnprob [Fin 50; Fin 300] [Fin 0.75; Fin 2.5]
         [[Fin 1; Fin 1]; [Fin 1; Fin 1]] [Fin 100] [Fin 1]
         (Fin 0, Fin 0, Fin 0)
  = lnlike [Fin 50; Fin 300] [Fin 0.75; Fin 2.5]
           [[Fin 1; Fin 1]; [Fin 1; Fin 1]] [Fin 100] [Fin 1]
           (Fin 0, Fin 0, Fin 0).
Proof.
  split.
  - apply (proj1 (lnprob_spec [Fin 50; Fin 300] [Fin 0.75; Fin 2.5]
                    [[Fin 1; Fin 1]; [Fin 1; Fin 1]] [Fin 100] [Fin 1]
                    (Fin 7) (Fin 0) (Fin 0))).
    left. simpl. rewrite (Rltb_false 7 5) by lra. apply andb_false_r.
  - apply (proj2 (lnprob_spec [Fin 50; Fin 300] [Fin 0.75; Fin 2.5]
                    [[Fin 1; Fin 1]; [Fin 1; Fin 1]] [Fin 100] [Fin 1]
                    (Fin 0) (Fin 0) (Fin 0))).
    simpl. rewrite (Rltb_true (-5) 0), (Rltb_true 0 5) by lra. auto.
Defined.

(** The end points of a prior interval are outside it. *)
Example lnprob_on_the_boundary :
  lnprob [] [] [] [] [] (Fin 5, Fin 0, Fin 0) = NInf.
Proof. unfold lnprob, lnprob_with. simpl. rdec. reflexivity. Qed.

(** *** Orbital utilities: Kepler's third law and edge cases *)

Lemma Rpower_cube_root (b : R) :
  0 < b ->
  Rpower b (1.0 / 3) * Rpower b (1.0 / 3) * Rpower b (1.0 / 3) = b.
Proof.
  intros Hb. rewrite <- !Rpower_plus.
  replace (1.0 / 3 + 1.0 / 3 + 1.0 / 3) with 1 by lra.
  now apply Rpower_1.
Qed.



Lemma Go4pi_fin :
  Go4pi = Fin (2945.4625385377644 / (4 * PI * PI)) /\
  0 < 2945.4625385377644 / (4 * PI * PI).
Proof.
  assert (Hpi := PI_RGT_0).
  assert (H4 : 0 < 4 * PI * PI) by (apply Rmult_lt_0_compat; lra).
  split.
  - unfold Go4pi. simpl. now rewrite Reqb_false by lra.
  - apply Rdiv_lt_0_compat; lra.
Qed.







(** For an orbit outside the star ([aor > 1]) and an eccentricity in
    [[0,1)] the geometric factor is finite and positive, and it is at most
    [1] exactly when [aor * (1 - e^2) >= 1]: for eccentric orbits close to the
    star it exceeds [1]. *)
Theorem get_pgeom_at_most_one_iff (a e : R) :
  1 < a -> 0 <= e < 1 ->
  exists g, get_pgeom (Fin a) (Fin e) = Fin g /\ 0 < g /\
            (g <= 1 <-> 1 <= a * (1 - e * e)).
Proof.
  intros Ha He.
  assert (Hd : 0 < a * (1 + - (e * e))) by (apply Rmult_lt_0_compat; nra).
  exists (1.0 / (a * (1 + - (e * e))) * 1). split; [|split].
  - unfold get_pgeom. simpl. rewrite Reqb_false by lra.
    now rewrite (Rltb_true 1.0 a) by lra.
  - assert (0 < 1.0 / (a * (1 + - (e * e))))
      by (apply Rdiv_lt_0_compat; lra).
    lra.
  - set (q := a * (1 + - (e * e))) in *.
    replace (a * (1 - e * e)) with q by (unfold q; ring). clearbody q.
    assert (Hiq : 0 < / q) by now apply Rinv_0_lt_compat.
    assert (Hqq : / q * q = 1) by (apply Rinv_l; lra).
    unfold Rdiv. split; intros H; nra.
Qed.

Lemma get_pgeom_at_most_one_iff_witness :
  exists g, get_pgeom (Fin 1.1) (Fin 0.9) = Fin g /\ 0 < g /\
            (g <= 1 <-> 1 <= 1.1 * (1 - 0.9 * 0.9)).
Proof. apply (get_pgeom_at_most_one_iff 1.1 0.9); lra. Defined.

(** *** Window function and completeness: ranges and exceptions *)

(** Whatever the star and the period, the window function is never
    negative: the mask removes the negative values, and what it cannot remove
    is [nan]. *)
Theorem get_pwin_never_negative (star : Star) (period : float) :
  (get_pwin star period <? Fin 0)%np = false /\
  get_pwin star period <> NInf.
Proof.
  pose proof (get_pwin_not_negative star period) as H.
  split; [exact H|]. intros Heq. rewrite Heq in H. discriminate.
Qed.



Lemma fpow_base_1 (b : R) : (Fin 1 ** Fin b)%np = Fin 1.
Proof.
  simpl. destruct (Reqb b 0); [reflexivity|].
  rewrite (Rltb_true 0 1) by lra. now rewrite Rpower_base_1.
Qed.



(** *** Exceptions of the completeness model *)

Lemma np_interp_none_iff (x : float) (xp : list R) (fp : list float) :
  np_interp x xp fp = None <-> xp = [] \/ length xp <> length fp.
Proof.
  split.
  - intros H. destruct xp as [|x0 xp]; [now left|]. right. intros Hlen.
    destruct (np_interp_some x (x0 :: xp) fp) as [v Hv];
      [discriminate | exact Hlen | congruence].
  - intros [-> | Hne].
    + unfold np_interp. destruct fp; reflexivity.
    + unfold np_interp.
      destruct (Nat.eqb_spec (length xp) (length fp)); [contradiction|].
      reflexivity.
Qed.


(** *** Completeness with the geometric factor *)

Lemma get_pgeom_circular_range (a : R) :
  0 < a -> exists g, get_pgeom (Fin a) (Fin 0) = Fin g /\ 0 <= g <= 1.
Proof.
  intros Ha. unfold get_pgeom. simpl.
  replace (a * (1 + - (0 * 0))) with a by ring.
  rewrite (Reqb_false a 0) by lra.
  assert (Hia : 0 < / a) by now apply Rinv_0_lt_compat.
  assert (Hiaa : / a * a = 1) by (apply Rinv_l; lra).
  destruct (Rltb_spec 1.0 a); simpl; eexists; (split; [reflexivity|]);
    unfold Rdiv; nra.
Qed.

(** The steps shared by the range statements: on a well-formed star, at a
    positive period and zero eccentricity, the three factors are finite
    numbers in [[0,1]]. *)
Lemma completeness_factors
    (gamma_cdf : R -> R -> R -> float -> float)
    (cdpp_vals mesthres_vals : list R) (star : Star) (P rp : R) :
  is_cdf (pgam_cdf gamma_cdf) ->
  star_ok cdpp_vals mesthres_vals star ->
  0 < P ->
  (dutycycle star <? Fin 1)%np = true \/
  (dataspan star / Fin P >=? Fin 2)%np = true ->
  exists p w g,
    0 <= p <= 1 /\ 0 <= w <= 1 /\ 0 <= g <= 1 /\
    get_completeness gamma_cdf cdpp_vals mesthres_vals star
                     (Fin P) (Fin rp) (Fin 0) false = Some (Fin (p * w)) /\
    get_completeness gamma_cdf cdpp_vals mesthres_vals star
                     (Fin P) (Fin rp) (Fin 0) true = Some (Fin (p * w * g)).
Proof.
  intros [Hrange _] Hstar HP Hdom.
  pose proof Hstar as (r & m & _ & _ & _ & _ & Hr & Hrpos & Hm & Hmpos & _).
  destruct (get_a_pos P m HP Hmpos) as [a [Ha Hapos]].
  assert (Har : 0 < a / r) by (apply Rdiv_lt_0_compat; assumption).
  destruct (get_pdet_finite gamma_cdf _ _ _ Hstar (a / r) P 0)
    as (r' & T & f & sigma & mest & _ & _ & HT & HTpos & Hf & Hfr & _ & Hpdet);
    [assumption | assumption | lra |].
  destruct (Hrange (mes_real r' T f P sigma rp - 4.1 - (mest - 7.1)))
    as [p [Hp Hpr]].
  destruct (get_pwin_range star T f P HT Hf Hfr) as [w [Hw Hwr]]; [lra | |].
  { rewrite Hf, HT in Hdom. rewrite (fdiv_fin T P) in Hdom by lra.
    simpl in Hdom. destruct Hdom as [Hd | Hd]; [left | right]; rdec. }
  destruct (get_pgeom_circular_range (a / r) Har) as [g [Hg Hgr]].
  exists p, w, g. repeat (split; [lra|]).
  unfold get_completeness. rewrite Hm, Hr, Ha.
  rewrite (fdiv_fin a r) by lra. rewrite Hpdet. simpl bind.
  rewrite Hp, Hw, Hg. split; reflexivity.
Qed.



(** *** The completeness map: shape *)

Lemma sequence_length {A : Type} (xs : list (option A)) (ys : list A) :
  sequence xs = Some ys -> length ys = length xs.
Proof.
  revert ys. induction xs as [|[x|] xs IH]; intros ys H; simpl in H.
  - now injection H as <-.
  - destruct (sequence xs) as [vs|]; [|discriminate].
    injection H as <-. simpl. f_equal. now apply IH.
  - discriminate.
Qed.

Lemma length_zip_with {A B C : Type} (f : A -> B -> C)
    (xs : list A) (ys : list B) :
  length (zip_with f xs ys) = Nat.min (length xs) (length ys).
Proof. unfold zip_with. now rewrite length_map, length_combine. Qed.

Lemma has_shape_cons (n m : nat) (row : list float) (a : arr2) :
  has_shape (S n) m (row :: a) <-> length row = m /\ has_shape n m a.
Proof.
  unfold has_shape. simpl. split.
  - intros [Hl Hall]. inversion Hall; subst. repeat split; auto.
  - intros [Hr [Hl Hall]]. split; [now f_equal | now constructor].
Qed.

Lemma has_shape_nil_inv (n m : nat) : has_shape n m [] -> n = 0%nat.
Proof. intros [H _]. now simpl in H. Qed.

Lemma arr2_zip_shape (f : float -> float -> float) (n m : nat) (a b : arr2) :
  has_shape n m a -> has_shape n m b -> has_shape n m (arr2_zip f a b).
Proof.
  revert n b. induction a as [|ra a IH]; intros n b Ha Hb.
  - apply has_shape_nil_inv in Ha. subst. split; [reflexivity | constructor].
  - destruct n as [|n]; [destruct Ha; discriminate|].
    destruct b as [|rb b]; [destruct Hb; discriminate|].
    apply has_shape_cons in Ha as [Hra Ha].
    apply has_shape_cons in Hb as [Hrb Hb].
    unfold arr2_zip, zip_with. simpl. apply has_shape_cons. split.
    + fold (zip_with f ra rb). rewrite length_zip_with, Hra, Hrb.
      apply Nat.min_id.
    + apply (IH n b Ha Hb).
Qed.

Lemma vectorize2_cons (f : float -> float -> option float)
    (ra rb : list float) (a b : arr2) :
  vectorize2 f (ra :: a) (rb :: b)
  = (row <- sequence (zip_with f ra rb) ;;
     rest <- vectorize2 f a b ;;
     Some (row :: rest)).
Proof. reflexivity. Qed.

Lemma vectorize2_shape (f : float -> float -> option float) (n m : nat)
    (a b c : arr2) :
  has_shape n m a -> has_shape n m b ->
  vectorize2 f a b = Some c -> has_shape n m c.
Proof.
  revert n b c. induction a as [|ra a IH]; intros n b c Ha Hb Hc.
  - apply has_shape_nil_inv in Ha. subst.
    unfold vectorize2 in Hc. simpl in Hc. injection Hc as <-.
    split; [reflexivity | constructor].
  - destruct n as [|n]; [destruct Ha; discriminate|].
    destruct b as [|rb b]; [destruct Hb; discriminate|].
    apply has_shape_cons in Ha as [Hra Ha].
    apply has_shape_cons in Hb as [Hrb Hb].
    rewrite vectorize2_cons in Hc.
    destruct (sequence (zip_with f ra rb)) as [row|] eqn:Hrow;
      [|discriminate]. simpl in Hc.
    destruct (vectorize2 f a b) as [c'|] eqn:Hc'; [|discriminate].
    simpl in Hc.
    injection Hc as <-. apply has_shape_cons. split.
    + rewrite (sequence_length _ _ Hrow), length_zip_with, Hra, Hrb.
      apply Nat.min_id.
    + apply (IH n b c' Ha Hb Hc').
Qed.

Lemma period_grid_shape (period rp : list float) :
  has_shape (length period) (length rp) (period_grid period rp).
Proof.
  unfold period_grid, meshgrid_ij, has_shape. simpl. rewrite length_map.
  split; [reflexivity|]. apply Forall_map. apply Forall_forall.
  intros x _. apply length_map.
Qed.

Lemma rp_grid_shape (period rp : list float) :
  has_shape (length period) (length rp) (rp_grid period rp).
Proof.
  unfold rp_grid, meshgrid_ij, has_shape. simpl. rewrite length_map.
  split; [reflexivity|]. apply Forall_map. apply Forall_forall.
  intros x _. reflexivity.
Qed.

Lemma zeros_like_shape (n m : nat) (a : arr2) :
  has_shape n m a -> has_shape n m (zeros_like a).
Proof.
  unfold zeros_like, arr2_map, has_shape. intros [Hl Hall].
  rewrite length_map. split; [exact Hl|]. apply Forall_map.
  eapply Forall_impl; [|exact Hall]. intros row Hrow. simpl.
  now rewrite length_map.
Qed.

Lemma accumulate_completeness_shape
    (gamma_cdf : R -> R -> R -> float -> float)
    (cdpp_vals mesthres_vals : list R) (stlr : list Star)
    (n m : nat) (pg rg c0 comp : arr2) :
  has_shape n m pg -> has_shape n m rg -> has_shape n m c0 ->
  accumulate_completeness gamma_cdf cdpp_vals mesthres_vals stlr pg rg c0
  = Some comp ->
  has_shape n m comp.
Proof.
  intros Hpg Hrg. revert c0 comp.
  induction stlr as [|star rest IH]; intros c0 comp Hc0 H; simpl in H.
  - now injection H as <-.
  - destruct (get_completeness_grid gamma_cdf cdpp_vals mesthres_vals star
                pg rg (Fin 0.0) true) as [c|] eqn:Hc; [|discriminate].
    simpl in H. apply (IH (arr2_zip fadd c0 c)); [|exact H].
    apply arr2_zip_shape; [exact Hc0|].
    unfold get_completeness_grid in Hc.
    exact (vectorize2_shape _ n m pg rg c Hpg Hrg Hc).
Qed.

(** Whatever the catalogue, the completeness map that the aggregation loop
    returns has the shape of the grid: one row per period and one entry per
    radius, as the likelihood requires of [comp]. *)
Theorem build_comp_shape
    (gamma_cdf : R -> R -> R -> float -> float)
    (cdpp_vals mesthres_vals : list R) (stlr : list Star)
    (period rp : list float) (comp : arr2) :
  build_comp gamma_cdf cdpp_vals mesthres_vals stlr period rp = Some comp ->
  length comp = length period /\
  Forall (fun row => length row = length rp) comp.
Proof.
  intros H.
  apply (accumulate_completeness_shape gamma_cdf cdpp_vals mesthres_vals stlr
           (length period) (length rp) _ _ _ comp
           (period_grid_shape period rp) (rp_grid_shape period rp)
           (zeros_like_shape _ _ _ (period_grid_shape period rp)) H).
Qed.


(** *** The completeness map: sums over the catalogue *)

Lemma fadd_assoc (x y z : float) : (x + y + z)%np = (x + (y + z))%np.
Proof.
  destruct x, y, z; simpl; try reflexivity. f_equal. ring.
Qed.

Lemma fadd_0_l (x : float) : (Fin 0 + x)%np = x.
Proof. destruct x; simpl; try reflexivity. f_equal. ring. Qed.

Lemma zip_with_assoc {A : Type} (f : A -> A -> A) (a b c : list A) :
  (forall x y z, f (f x y) z = f x (f y z)) ->
  zip_with f (zip_with f a b) c = zip_with f a (zip_with f b c).
Proof.
  intros Hf. revert b c. unfold zip_with.
  induction a as [|x a IH]; intros [|y b] [|z c]; simpl; try reflexivity.
  f_equal; [apply Hf | apply IH].
Qed.

Lemma arr2_zip_fadd_assoc (a b c : arr2) :
  arr2_zip fadd (arr2_zip fadd a b) c = arr2_zip fadd a (arr2_zip fadd b c).
Proof.
  unfold arr2_zip. apply zip_with_assoc. intros x y z.
  apply zip_with_assoc. apply fadd_assoc.
Qed.

Lemma zip_with_zeros_l (row z : list float) :
  length z = length row -> Forall (fun v => v = Fin 0) z ->
  zip_with fadd z row = row.
Proof.
  revert z. unfold zip_with.
  induction row as [|x row IH]; intros [|v z] Hlen Hz; simpl in *;
    try reflexivity; try discriminate.
  inversion Hz; subst. rewrite fadd_0_l. f_equal. apply IH; auto.
Qed.

Lemma arr2_zip_zeros_l (n m : nat) (a c : arr2) :
  has_shape n m a -> has_shape n m c ->
  arr2_zip fadd (zeros_like a) c = c.
Proof.
  revert n c. induction a as [|ra a IH]; intros n c Ha Hc.
  - apply has_shape_nil_inv in Ha. subst. destruct Hc as [Hc _].
    destruct c; [reflexivity | discriminate].
  - destruct n as [|n]; [destruct Ha; discriminate|].
    destruct c as [|rc c]; [destruct Hc; discriminate|].
    apply has_shape_cons in Ha as [Hra Ha].
    apply has_shape_cons in Hc as [Hrc Hc].
    unfold arr2_zip, zip_with, zeros_like, arr2_map. simpl. f_equal.
    + apply zip_with_zeros_l.
      * rewrite length_map. congruence.
      * apply Forall_map. apply Forall_forall. reflexivity.
    + apply (IH n c Ha Hc).
Qed.

Section Accumulation.

Variable gamma_cdf : R -> R -> R -> float -> float.
Variables cdpp_vals mesthres_vals : list R.
Variables (n m : nat) (pg rg : arr2).
Hypothesis pg_shape : has_shape n m pg.
Hypothesis rg_shape : has_shape n m rg.

Let accumulate := accumulate_completeness gamma_cdf cdpp_vals mesthres_vals.

Lemma accumulate_app (s1 s2 : list Star) (c0 : arr2) :
  accumulate (s1 ++ s2) pg rg c0
  = (c1 <- accumulate s1 pg rg c0 ;; accumulate s2 pg rg c1).
Proof.
  revert c0. induction s1 as [|star s1 IH]; intros c0; [reflexivity|].
  unfold accumulate in *. simpl.
  destruct (get_completeness_grid gamma_cdf cdpp_vals mesthres_vals star
              pg rg (Fin 0.0) true); [|reflexivity].
  simpl. apply IH.
Qed.

Lemma accumulate_from (s : list Star) (c0 : arr2) :
  has_shape n m c0 ->
  accumulate s pg rg c0
  = (d <- accumulate s pg rg (zeros_like pg) ;; Some (arr2_zip fadd c0 d)).
Proof.
  revert c0. induction s as [|star s IH]; intros c0 Hc0.
  - unfold accumulate. simpl. f_equal.
    clear - Hc0 pg_shape. revert n c0 Hc0 pg_shape.
    induction pg as [|rp a IHa]; intros n c0 Hc0 Hpg.
    + apply has_shape_nil_inv in Hpg. subst. destruct Hc0 as [Hc0 _].
      destruct c0; [reflexivity | discriminate].
    + destruct n as [|n]; [destruct Hpg; discriminate|].
      destruct c0 as [|rc c0]; [destruct Hc0; discriminate|].
      apply has_shape_cons in Hpg as [Hrp Hpg].
      apply has_shape_cons in Hc0 as [Hrc Hc0].
      unfold arr2_zip, zip_with, zeros_like, arr2_map. simpl. f_equal.
      * clear - Hrp Hrc. revert rp Hrp. subst m.
        induction rc as [|x rc IH]; intros [|y rp] H; simpl in *;
          try reflexivity; try discriminate.
        f_equal; [destruct x; simpl; try reflexivity; f_equal; ring|].
        apply IH. now injection H.
      * apply (IHa n c0 Hc0 Hpg).
  - unfold accumulate in *. simpl.
    destruct (get_completeness_grid gamma_cdf cdpp_vals mesthres_vals star
                pg rg (Fin 0.0) true) as [c|] eqn:Hc; [|reflexivity].
    simpl.
    assert (Hcs : has_shape n m c).
    { unfold get_completeness_grid in Hc.
      exact (vectorize2_shape _ n m pg rg c pg_shape rg_shape Hc). }
    rewrite (IH (arr2_zip fadd c0 c)) by (now apply arr2_zip_shape).
    rewrite (IH (arr2_zip fadd (zeros_like pg) c))
      by (apply arr2_zip_shape; [now apply zeros_like_shape | exact Hcs]).
    destruct (accumulate_completeness gamma_cdf cdpp_vals mesthres_vals s
                pg rg (zeros_like pg)) as [d|]; [|reflexivity].
    simpl. f_equal.
    rewrite (arr2_zip_zeros_l n m pg c pg_shape Hcs).
    apply arr2_zip_fadd_assoc.
Qed.

End Accumulation.

(** The completeness map is additive in the stellar sample: the map of two
    catalogues put together is the entry-wise sum of their maps (finite
    values being exact), and it raises as soon as one of them raises. *)
Theorem build_comp_additive
    (gamma_cdf : R -> R -> R -> float -> float)
    (cdpp_vals mesthres_vals : list R) (s1 s2 : list Star)
    (period rp : list float) :
  build_comp gamma_cdf cdpp_vals mesthres_vals (s1 ++ s2) period rp
  = (c1 <- build_comp gamma_cdf cdpp_vals mesthres_vals s1 period rp ;;
     c2 <- build_comp gamma_cdf cdpp_vals mesthres_vals s2 period rp ;;
     Some (arr2_zip fadd c1 c2)).
Proof.
  unfold build_comp.
  pose proof (period_grid_shape period rp) as Hpg.
  pose proof (rp_grid_shape period rp) as Hrg.
  rewrite accumulate_app.
  destruct (accumulate_completeness gamma_cdf cdpp_vals mesthres_vals s1
              (period_grid period rp) (rp_grid period rp)
              (zeros_like (period_grid period rp))) as [c1|] eqn:H1;
    [|reflexivity].
  simpl. apply (accumulate_from gamma_cdf cdpp_vals mesthres_vals _ _ _ _
                  Hpg Hrg).
  apply (accumulate_completeness_shape gamma_cdf cdpp_vals mesthres_vals s1
           _ _ _ _ _ c1 Hpg Hrg (zeros_like_shape _ _ _ Hpg) H1).
Qed.

(** *** The completeness map: entries *)

Lemma sequence_all {A : Type} (Q : A -> Prop) (xs : list (option A)) :
  Forall (fun x => exists v, x = Some v /\ Q v) xs ->
  exists ys, sequence xs = Some ys /\ Forall Q ys.
Proof.
  induction 1 as [|x xs [v [-> Hv]] _ [ys [Hys Hall]]].
  - exists []. split; [reflexivity | constructor].
  - exists (v :: ys). simpl. rewrite Hys. split; [reflexivity|].
    now constructor.
Qed.

Lemma zip_with_all {A B C : Type} (QA : A -> Prop) (QB : B -> Prop)
    (QC : C -> Prop) (f : A -> B -> C) (xs : list A) (ys : list B) :
  (forall u v, QA u -> QB v -> QC (f u v)) ->
  Forall QA xs -> Forall QB ys -> Forall QC (zip_with f xs ys).
Proof.
  intros Hf Hxs. revert ys. unfold zip_with.
  induction Hxs as [|x xs Hx _ IH]; intros ys Hys; [constructor|].
  destruct Hys as [|y ys Hy Hys]; simpl; constructor; auto.
Qed.

Lemma arr2_zip_all (Q1 Q2 Q3 : float -> Prop) (f : float -> float -> float)
    (a b : arr2) :
  (forall u v, Q1 u -> Q2 v -> Q3 (f u v)) ->
  arr2_all Q1 a -> arr2_all Q2 b -> arr2_all Q3 (arr2_zip f a b).
Proof.
  intros Hf. unfold arr2_all, arr2_zip.
  apply zip_with_all. intros u v. now apply zip_with_all.
Qed.

Lemma vectorize2_all (QA QB Q : float -> Prop)
    (f : float -> float -> option float) (a b : arr2) :
  (forall u v, QA u -> QB v -> exists w, f u v = Some w /\ Q w) ->
  arr2_all QA a -> arr2_all QB b ->
  exists c, vectorize2 f a b = Some c /\ arr2_all Q c.
Proof.
  intros Hf Ha Hb. unfold vectorize2. apply sequence_all.
  apply Forall_map.
  apply (zip_with_all (Forall QA) (Forall QB)); [|exact Ha|exact Hb].
  intros u v Hu Hv. apply sequence_all.
  now apply (zip_with_all QA QB).
Qed.

Lemma period_grid_all (Q : float -> Prop) (period rp : list float) :
  Forall Q period -> arr2_all Q (period_grid period rp).
Proof.
  intros H. unfold period_grid, meshgrid_ij, arr2_all. simpl.
  apply Forall_map. eapply Forall_impl; [|exact H].
  intros x Hx. apply Forall_map. apply Forall_forall. auto.
Qed.

Lemma rp_grid_all (Q : float -> Prop) (period rp : list float) :
  Forall Q rp -> arr2_all Q (rp_grid period rp).
Proof.
  intros H. unfold rp_grid, meshgrid_ij, arr2_all. simpl.
  apply Forall_map. apply Forall_forall. auto.
Qed.

Lemma finite_in_add (k : R) (u v : float) :
  finite_in 0 k u -> finite_in 0 1 v -> finite_in 0 (k + 1) (u + v)%np.
Proof.
  intros [x [-> Hx]] [y [-> Hy]]. exists (x + y). split; [reflexivity | lra].
Qed.

Section BoundedEntries.

Variable gamma_cdf : R -> R -> R -> float -> float.
Variables cdpp_vals mesthres_vals : list R.
Hypothesis cdf_ok : is_cdf (pgam_cdf gamma_cdf).

Let good_star (star : Star) : Prop :=
  star_ok cdpp_vals mesthres_vals star /\
  (dutycycle star <? Fin 1)%np = true.
Let positive (x : float) : Prop := exists p, x = Fin p /\ 0 < p.
Let finite (x : float) : Prop := isfinite x = true.

Lemma get_completeness_grid_all (star : Star) (pg rg : arr2) :
  good_star star -> arr2_all positive pg -> arr2_all finite rg ->
  exists c,
    get_completeness_grid gamma_cdf cdpp_vals mesthres_vals star pg rg
                          (Fin 0.0) true = Some c /\
    arr2_all (finite_in 0 1) c.
Proof.
  intros [Hstar Hduty] Hpg Hrg. unfold get_completeness_grid.
  apply (vectorize2_all positive finite); [|exact Hpg|exact Hrg].
  intros u v [P [-> HP]] Hv. destruct v as [| | |rp]; try discriminate.
  destruct (completeness_factors gamma_cdf cdpp_vals mesthres_vals star P rp
              cdf_ok Hstar HP (or_introl Hduty))
    as (p & w & g & Hp & Hw & Hg & _ & H1).
  replace 0.0 with 0 by lra. rewrite H1. eexists. split; [reflexivity|].
  exists (p * w * g). split; [reflexivity|].
  assert (0 <= p * w <= 1) by nra. nra.
Qed.

Lemma accumulate_completeness_all (stlr : list Star) (pg rg c0 : arr2) (k : R) :
  Forall good_star stlr -> arr2_all positive pg -> arr2_all finite rg ->
  arr2_all (finite_in 0 k) c0 ->
  exists comp,
    accumulate_completeness gamma_cdf cdpp_vals mesthres_vals stlr pg rg c0
    = Some comp /\
    arr2_all (finite_in 0 (k + INR (length stlr))) comp.
Proof.
  intros Hstars Hpg Hrg. revert c0 k.
  induction Hstars as [|star rest Hstar _ IH]; intros c0 k Hc0.
  - exists c0. split; [reflexivity|]. simpl. now rewrite Rplus_0_r.
  - destruct (get_completeness_grid_all star pg rg Hstar Hpg Hrg)
      as [c [Hc Hall]].
    destruct (IH (arr2_zip fadd c0 c) (k + 1)) as [comp [Hcomp Hb]].
    { apply (arr2_zip_all (finite_in 0 k) (finite_in 0 1)); auto.
      apply finite_in_add. }
    exists comp. split.
    + simpl. rewrite Hc. exact Hcomp.
    + replace (k + INR (length (star :: rest)))
        with (k + 1 + INR (length rest)); [exact Hb|].
      change (length (star :: rest)) with (S (length rest)).
      rewrite S_INR. ring.
Qed.

Lemma build_comp_all (stlr : list Star) (period rp : list float) :
  Forall good_star stlr -> Forall positive period -> Forall finite rp ->
  exists comp,
    build_comp gamma_cdf cdpp_vals mesthres_vals stlr period rp = Some comp /\
    arr2_all (finite_in 0 (INR (length stlr))) comp.
Proof.
  intros Hstars Hp Hr. unfold build_comp.
  destruct (accumulate_completeness_all stlr (period_grid period rp)
              (rp_grid period rp) (zeros_like (period_grid period rp)) 0)
    as [comp [Hcomp Hb]]; auto.
  - now apply period_grid_all.
  - now apply rp_grid_all.
  - unfold zeros_like, arr2_map, arr2_all. apply Forall_map.
    apply Forall_forall. intros row _. apply Forall_map.
    apply Forall_forall. intros x _. exists 0. split; [reflexivity | lra].
  - exists comp. split; [exact Hcomp|]. now rewrite Rplus_0_l in Hb.
Qed.

End BoundedEntries.


Lemma sample_catalogue_good :
  Forall (fun star => star_ok thresh thresh star /\
                      (dutycycle star <? Fin 1)%np = true)
         [flat_star 1460 0.84; flat_star 1000 0.7].
Proof.
  repeat constructor; try (apply flat_star_ok; lra);
    simpl; apply Rltb_true; lra.
Qed.

Lemma sample_grid_positive :
  Forall (fun x => exists p, x = Fin p /\ 0 < p) [Fin 50; Fin 300].
Proof. repeat constructor; eexists; (split; [reflexivity | lra]). Qed.


Lemma build_comp_shape_witness :
  exists comp,
    build_comp expo_cdf thresh thresh
               [flat_star 1460 0.84; flat_star 1000 0.7]
               [Fin 50; Fin 300] [Fin 0.75; Fin 2.5] = Some comp /\
    length comp = 2%nat /\ Forall (fun row => length row = 2%nat) comp.
Proof.
  destruct (build_comp_all expo_cdf thresh thresh
              (expo_cdf_is_cdf 4.65 0.0 0.98 ltac:(lra))
              [flat_star 1460 0.84; flat_star 1000 0.7]
              [Fin 50; Fin 300] [Fin 0.75; Fin 2.5]
              sample_catalogue_good sample_grid_positive
              ltac:(repeat constructor)) as [comp [Hcomp _]].
  exists comp. split; [exact Hcomp|].
  exact (build_comp_shape expo_cdf thresh thresh _ _ _ comp Hcomp).
Defined.

(** *** The population model on its domain *)

Lemma fpow_pos (x n : R) : 0 < x -> (Fin x ** Fin n)%np = Fin (Rpower x n).
Proof.
  intros Hx. simpl. destruct (Reqb_spec n 0) as [-> | Hn].
  - now rewrite Rpower_O.
  - now rewrite Rltb_true.
Qed.

Lemma Rpower_pos (x y : R) : 0 < Rpower x y.
Proof. unfold Rpower. apply exp_pos. Qed.

(** The normalizing denominator has the sign of [n + 1]. *)
Lemma power_law_denominator (n lo hi : R) :
  0 < lo < hi -> n + 1 <> 0 ->
  0 < (n + 1) / (Rpower hi (n + 1) - Rpower lo (n + 1)).
Proof.
  intros Hlh Hn.
  destruct (Rlt_dec 0 (n + 1)) as [Hpos | Hneg].
  - apply Rdiv_lt_0_compat; [lra|].
    assert (Rpower lo (n + 1) < Rpower hi (n + 1))
      by (apply Rlt_Rpower_l; lra).
    lra.
  - assert (Hlt : n + 1 < 0) by lra.
    assert (Rpower hi (n + 1) < Rpower lo (n + 1)).
    { replace (n + 1) with (- (- (n + 1))) by ring.
      rewrite !(Rpower_Ropp _ (- (n + 1))).
      apply Rinv_lt_contravar.
      - apply Rmult_lt_0_compat; apply Rpower_pos.
      - apply Rlt_Rpower_l; lra. }
    replace ((n + 1) / (Rpower hi (n + 1) - Rpower lo (n + 1)))
      with ((- (n + 1)) / (Rpower lo (n + 1) - Rpower hi (n + 1)))
      by (field; lra).
    apply Rdiv_lt_0_compat; lra.
Qed.

Lemma power_law_fin (x n lo hi : R) :
  0 < x -> 0 < lo < hi -> n + 1 <> 0 ->
  power_law (Fin x) (Fin n) (Fin lo) (Fin hi)
  = Fin (Rpower x n * (n + 1) / (Rpower hi (n + 1) - Rpower lo (n + 1))) /\
  0 < Rpower x n * (n + 1) / (Rpower hi (n + 1) - Rpower lo (n + 1)).
Proof.
  intros Hx Hlh Hn.
  pose proof (power_law_denominator n lo hi Hlh Hn) as Hd.
  assert (HD : Rpower hi (n + 1) - Rpower lo (n + 1) <> 0).
  { intros H0. rewrite H0 in Hd. unfold Rdiv in Hd. rewrite Rinv_0 in Hd.
    lra. }
  split.
  - unfold power_law. rewrite (fpow_pos x n Hx).
    change (Fin n + Fin 1)%np with (Fin (n + 1)).
    rewrite (fpow_pos hi (n + 1)), (fpow_pos lo (n + 1)) by lra.
    simpl. rewrite Reqb_false; [reflexivity|].
    intros H0. apply HD. lra.
  - pose proof (Rpower_pos x n).
    unfold Rdiv in *. rewrite Rmult_assoc. now apply Rmult_lt_0_compat.
Qed.

Lemma population_model_unfold (lnf0 beta alpha period rp : float) :
  population_model (lnf0, beta, alpha) period rp
  = (fexp lnf0 * Fin 1
     * power_law period beta (Fin 50) (Fin 300)
     * power_law rp alpha (Fin 0.75) (Fin 2.5))%np.
Proof. reflexivity. Qed.



Lemma power_law_nan_at_minus_one (x lo hi : float) :
  power_law x (Fin (-1)) lo hi = NaN.
Proof.
  unfold power_law.
  change (Fin (-1) + Fin 1)%np with (Fin (-1 + 1)).
  assert (Hz : forall y, (y ** Fin (-1 + 1))%np = Fin 1).
  { intros y. destruct y; simpl; now rewrite Reqb_true by lra. }
  rewrite !Hz.
  destruct (x ** Fin (-1))%np as [| | |y]; simpl; unfold inf_of_sign;
    rdec; reflexivity.
Qed.

(** An exponent of exactly [-1] cannot be normalized: [0/0] makes the
    density [nan] at every period and radius, whatever the other
    parameters. *)
Theorem population_model_nan_at_minus_one (lnf0 n period rp : float) :
  population_model (lnf0, Fin (-1), n) period rp = NaN /\
  population_model (lnf0, n, Fin (-1)) period rp = NaN.
Proof.
  pose proof power_law_nan_at_minus_one as Hpl.
  rewrite !population_model_unfold, !Hpl. split.
  - rewrite fmul_nan_r. reflexivity.
  - apply fmul_nan_r.
Qed.

(** Each truncated power law is normalized over its domain: on [[lo, hi]]
    the density that [power_law] computes is the derivative of
    [x^(n+1) / (hi^(n+1) - lo^(n+1))], which rises by exactly [1] from [lo]
    to [hi]; its Newton integral over the domain is [1]. *)
Theorem power_law_normalized (n lo hi : R) :
  0 < lo < hi -> n + 1 <> 0 ->
  let D := Rpower hi (n + 1) - Rpower lo (n + 1) in
  let dens := fun x => Rpower x n * (n + 1) / D in
  let G := fun x => Rpower x (n + 1) / D in
  (forall x, 0 < x ->
     power_law (Fin x) (Fin n) (Fin lo) (Fin hi) = Fin (dens x)) /\
  antiderivative dens G lo hi /\
  G hi - G lo = 1 /\
  exists pr : Newton_integrable dens lo hi, NewtonInt dens lo hi pr = 1.
Proof.
  intros Hlh Hn D dens G.
  pose proof (power_law_denominator n lo hi Hlh Hn) as Hd. fold D in Hd.
  assert (HD : D <> 0).
  { intros H0. rewrite H0 in Hd. unfold Rdiv in Hd. rewrite Rinv_0 in Hd.
    lra. }
  assert (Hanti : antiderivative dens G lo hi).
  { split; [|lra]. intros x Hx.
    assert (Hlim : derivable_pt_lim G x (dens x)).
    { unfold G, dens.
      replace (Rpower x n * (n + 1) / D)
        with ((n + 1) * Rpower x (n + 1 - 1) / D).
      - apply derivable_pt_lim_div_scal.
        apply derivable_pt_lim_power. lra.
      - replace (n + 1 - 1) with n by ring. unfold Rdiv. ring. }
    exists (exist _ (dens x) Hlim). reflexivity. }
  assert (Hone : G hi - G lo = 1).
  { unfold G, D. unfold D in HD. field. exact HD. }
  split; [|split; [exact Hanti | split; [exact Hone|]]].
  - intros x Hx. apply (power_law_fin x n lo hi Hx Hlh Hn).
  - exists (exist _ G (or_introl Hanti)). exact Hone.
Qed.

Lemma power_law_normalized_witness :
  Rpower 300 (-0.5 + 1) / (Rpower 300 (-0.5 + 1) - Rpower 50 (-0.5 + 1))
  - Rpower 50 (-0.5 + 1) / (Rpower 300 (-0.5 + 1) - Rpower 50 (-0.5 + 1))
  = 1.
Proof.
  apply (power_law_normalized (-0.5) 50 300 ltac:(lra) ltac:(lra)).
Defined.

(** *** The objective functions *)

Section Objectives.

Variables period rp : list float.
Variable comp : arr2.
Variables koi_periods koi_rps : list float.

Let lnlike' := lnlike period rp comp koi_periods koi_rps.
Let lnprob' := lnprob period rp comp koi_periods koi_rps.
Let nll' := nll period rp comp koi_periods koi_rps.

Lemma lnlike_finite_or_neginf (theta : Theta) :
  lnlike' theta = NInf \/ isfinite (lnlike' theta) = true.
Proof.
  unfold lnlike', lnlike.
  match goal with
  | |- context [isfinite ?ll] => destruct (isfinite ll) eqn:H
  end; [right; exact H | left; reflexivity].
Qed.

Lemma lnprob_loop_cases (theta : Theta)
    (items : list (float * (float * float))) :
  lnprob_loop period rp comp koi_periods koi_rps theta items = NInf \/
  lnprob_loop period rp comp koi_periods koi_rps theta items = lnlike' theta.
Proof.
  induction items as [|[t rng] items IH]; simpl.
  - now right.
  - destruct (negb _); [now left | exact IH].
Qed.

Lemma lnprob_cases (theta : Theta) :
  lnprob' theta = NInf \/ lnprob' theta = lnlike' theta.
Proof. apply lnprob_loop_cases. Qed.

Lemma nll_of_finite (theta : Theta) :
  isfinite (lnlike' theta) = true -> nll' theta = (- lnlike' theta)%np.
Proof.
  intros H. unfold nll', nll. fold lnlike'. now rewrite H.
Qed.

End Objectives.

(** The sampler never sees [nan] or [+inf]: for every parameter vector,
    [nan] and infinite parameters included, the ln-probability is a finite
    number or [-inf]. *)
Theorem lnprob_finite_or_neginf (period rp : list float) (comp : arr2)
    (koi_periods koi_rps : list float) (theta : Theta) :
  lnprob period rp comp koi_periods koi_rps theta = NInf \/
  isfinite (lnprob period rp comp koi_periods koi_rps theta) = true.
Proof.
  destruct (lnprob_cases period rp comp koi_periods koi_rps theta)
    as [H | H]; [now left|].
  rewrite H. apply lnlike_finite_or_neginf.
Qed.



(** With at least one detection, an exponent of exactly [-1] (inside the
    prior box) makes the ln-likelihood [-inf]: the density at the detection
    is [nan], the sum of the logs is [nan], and the non-finite result is
    replaced; the optimizer sees [1e15] there. *)
Theorem lnlike_neginf_at_minus_one (period rp : list float) (comp : arr2)
    (p r : float) (koi_periods koi_rps : list float) (lnf0 n : float) :
  lnlike period rp comp (p :: koi_periods) (r :: koi_rps)
         (lnf0, Fin (-1), n) = NInf /\
  lnlike period rp comp (p :: koi_periods) (r :: koi_rps)
         (lnf0, n, Fin (-1)) = NInf /\
  nll period rp comp (p :: koi_periods) (r :: koi_rps)
      (lnf0, Fin (-1), n) = Fin 1e15 /\
  nll period rp comp (p :: koi_periods) (r :: koi_rps)
      (lnf0, n, Fin (-1)) = Fin 1e15.
Proof.
  assert (Hsum : forall xs, fold_left fadd xs NaN = NaN).
  { induction xs as [|x xs IH]; [reflexivity | exact IH]. }
  assert (Hll : forall theta,
             population_model theta p r = NaN ->
             lnlike period rp comp (p :: koi_periods) (r :: koi_rps) theta
             = NInf).
  { intros theta Hpop. unfold lnlike. cbv zeta.
    change (zip_with (population_model theta) (p :: koi_periods)
              (r :: koi_rps))
      with (population_model theta p r
            :: zip_with (population_model theta) koi_periods koi_rps).
    rewrite Hpop. unfold fsum. cbn [map fold_left flog fadd].
    now rewrite Hsum. }
  assert (Hp : population_model (lnf0, Fin (-1), n) p r = NaN).
  { rewrite population_model_unfold, power_law_nan_at_minus_one.
    destruct (fexp lnf0 * Fin 1)%np; reflexivity. }
  assert (Hr : population_model (lnf0, n, Fin (-1)) p r = NaN).
  { rewrite population_model_unfold, power_law_nan_at_minus_one.
    now rewrite fmul_nan_r. }
  unfold nll. rewrite !(Hll _ Hp), !(Hll _ Hr). repeat split; reflexivity.
Qed.

(** *** The catalogue cuts *)

Lemma star_cut_inv (row : StellarRow) :
  star_cut row = true ->
  (dataspan (star_of row) >? Fin 365.25 * Fin 2.0)%np = true /\
  (dutycycle (star_of row) >? Fin 0.6)%np = true /\
  isfinite (mass (star_of row)) = true.
Proof.
  unfold star_cut. cbv zeta. rewrite !andb_true_iff. tauto.
Qed.

Lemma star_cut_two_transits (row : StellarRow) (P : R) :
  star_cut row = true -> 0 < P <= 365.25 ->
  (dataspan (star_of row) / Fin P >=? Fin 2.0)%np = true.
Proof.
  intros Hcut HP. destruct (star_cut_inv row Hcut) as [Hspan _].
  destruct (dataspan (star_of row)) as [| | |T]; try discriminate.
  - simpl. rewrite Rltb_false by lra. reflexivity.
  - rewrite fdiv_fin by lra. simpl in *.
    apply Rleb_true.
    assert (HT : 365.25 * 2.0 < T) by (revert Hspan; rdec; auto).
    unfold Rdiv. assert (Hi : 0 < / P) by (apply Rinv_0_lt_compat; lra).
    assert (Hone : P * / P = 1) by (apply Rinv_r; lra).
    nra.
Qed.



Lemma fleb_range_inv (lo hi : R) (x : float) :
  isfinite x = true ->
  (Fin lo <=? x)%np && (x <=? Fin hi)%np = true <-> finite_in lo hi x.
Proof.
  intros Hfin. destruct x as [| | |v]; try discriminate. simpl. split.
  - rewrite andb_true_iff. intros [H1 H2]. exists v. split; [reflexivity|].
    revert H1 H2. rdec.
  - intros [w [Hw Hr]]. injection Hw as ->.
    now rewrite !Rleb_true by lra.
Qed.

Lemma koi_cut_iff (k : Koi) :
  koi_cut k = true <->
  koi_pdisposition k = "CANDIDATE"%string /\
  finite_in 50 300 (koi_period k) /\ finite_in 0.75 2.5 (koi_prad k).
Proof.
  unfold koi_cut, base_koi_cut, period_rng, rp_rng. cbn [fst snd]. split.
  - intros H. apply andb_true_iff in H as [H Hr].
    apply andb_true_iff in H as [Hb Hp].
    apply andb_true_iff in Hb as [Hb Hf2].
    apply andb_true_iff in Hb as [Hd Hf1].
    apply String.eqb_eq in Hd.
    split; [exact Hd|]. split; now apply fleb_range_inv.
  - intros [Hd [Hp Hr]].
    assert (Hpf : isfinite (koi_period k) = true)
      by (destruct Hp as [v [-> _]]; reflexivity).
    assert (Hrf : isfinite (koi_prad k) = true)
      by (destruct Hr as [v [-> _]]; reflexivity).
    apply (fleb_range_inv _ _ _ Hpf) in Hp.
    apply (fleb_range_inv _ _ _ Hrf) in Hr.
    apply String.eqb_eq in Hd.
    now rewrite Hd, Hpf, Hrf, Hp, Hr.
Qed.

Lemma in_merge_on_kepid (kois : list Koi) (stlr : list StellarRow) (k : Koi) :
  In k (merge_on_kepid kois stlr) <->
  In k kois /\ exists row, In row stlr /\ kepid row = koi_kepid k.
Proof.
  unfold merge_on_kepid. rewrite in_flat_map. split.
  - intros [k' [Hk' Hin]]. apply in_map_iff in Hin.
    destruct Hin as [row [<- Hrow]]. apply filter_In in Hrow.
    destruct Hrow as [Hrow Heq]. apply Z.eqb_eq in Heq.
    split; [exact Hk'|]. now exists row.
  - intros [Hk [row [Hrow Heq]]]. exists k. split; [exact Hk|].
    apply in_map_iff. exists row. split; [reflexivity|].
    apply filter_In. split; [exact Hrow|]. now apply Z.eqb_eq.
Qed.

(** The KOI selection keeps exactly the rows of the KOI table whose star is
    in the stellar selection, whose disposition is CANDIDATE, and whose period
    and radius are finite numbers inside the closed analysis ranges
    [[50, 300]] days and [[0.75, 2.5]] Earth radii; a [nan] period or radius
    never passes. *)
Theorem select_kois_iff (kois : list Koi) (stlr : list StellarRow) (k : Koi) :
  In k (select_kois kois stlr) <->
  In k kois /\
  (exists row, In row stlr /\ kepid row = koi_kepid k) /\
  koi_pdisposition k = "CANDIDATE"%string /\
  finite_in 50 300 (koi_period k) /\
  finite_in 0.75 2.5 (koi_prad k).
Proof.
  unfold select_kois. rewrite filter_In, in_merge_on_kepid, koi_cut_iff.
  tauto.
Qed.

Lemma filter_kepid_unique (stlr : list StellarRow) (z : Z) :
  NoDup (map kepid stlr) ->
  (length (filter (fun row => Z.eqb (kepid row) z) stlr) <= 1)%nat.
Proof.
  induction stlr as [|row stlr IH]; intros Hnd; simpl; [lia|].
  inversion Hnd as [|? ? Hnotin Hnd']; subst.
  destruct (Z.eqb_spec (kepid row) z) as [Heq | Hne].
  - simpl. assert (Hnil : filter (fun r => Z.eqb (kepid r) z) stlr = []).
    { destruct (filter _ stlr) as [|r l] eqn:Hf; [reflexivity|].
      exfalso. apply Hnotin.
      assert (Hin : In r (filter (fun r => Z.eqb (kepid r) z) stlr))
        by (rewrite Hf; now left).
      apply filter_In in Hin. destruct Hin as [Hin Hz].
      apply Z.eqb_eq in Hz. rewrite Heq, <- Hz. now apply in_map. }
    rewrite Hnil. simpl. lia.
  - now apply IH.
Qed.

(** With unique star identifiers the join duplicates nothing: the selection
    is a sub-list of the KOI table, in its order, namely the rows whose star
    is selected and which pass the cut; in particular there are no more
    detections than KOIs. *)
Theorem select_kois_unique_stars (kois : list Koi) (stlr : list StellarRow) :
  NoDup (map kepid stlr) ->
  select_kois kois stlr
  = filter koi_cut
      (filter (fun k => existsb (fun row => Z.eqb (kepid row) (koi_kepid k))
                                stlr) kois) /\
  (length (select_kois kois stlr) <= length kois)%nat.
Proof.
  intros Hnd.
  assert (Hmerge : merge_on_kepid kois stlr
                   = filter (fun k => existsb (fun row =>
                                         Z.eqb (kepid row) (koi_kepid k))
                                       stlr) kois).
  { unfold merge_on_kepid. induction kois as [|k kois IH]; [reflexivity|].
    cbn [flat_map filter]. rewrite IH.
    pose proof (filter_kepid_unique stlr (koi_kepid k) Hnd) as Hlen.
    destruct (existsb _ stlr) eqn:Hex.
    - apply existsb_exists in Hex. destruct Hex as [row [Hin Heq]].
      destruct (filter (fun row => Z.eqb (kepid row) (koi_kepid k)) stlr)
        as [|r [|r' l]] eqn:Hf.
      + exfalso.
        assert (Hin' : In row (filter (fun row =>
                                  Z.eqb (kepid row) (koi_kepid k)) stlr))
          by (apply filter_In; now split).
        rewrite Hf in Hin'. exact Hin'.
      + reflexivity.
      + simpl in Hlen. lia.
    - destruct (filter (fun row => Z.eqb (kepid row) (koi_kepid k)) stlr)
        as [|r l] eqn:Hf; [reflexivity|].
      exfalso.
      assert (Hin : In r (filter (fun row =>
                               Z.eqb (kepid row) (koi_kepid k)) stlr))
        by (rewrite Hf; now left).
      apply filter_In in Hin. destruct Hin as [Hin Heq].
      assert (Htrue : existsb (fun row => Z.eqb (kepid row) (koi_kepid k))
                              stlr = true)
        by (apply existsb_exists; now exists r).
      congruence. }
  unfold select_kois. rewrite Hmerge. split; [reflexivity|].
  etransitivity; [apply filter_length_le|]. apply filter_length_le.
Qed.

Lemma select_kois_unique_stars_witness :
  (length (select_kois
             [{| koi_kepid := 7; koi_pdisposition := "CANDIDATE";
                 koi_period := Fin 100; koi_prad := Fin 1 |};
              {| koi_kepid := 8; koi_pdisposition := "CANDIDATE";
                 koi_period := Fin 100; koi_prad := Fin 1 |}]
             [{| kepid := 7; star_of := flat_star 1460 0.84;
                 teff := Fin 5000; rrmscdpp07p5 := Fin 30 |}])
   <= 2)%nat.
Proof.
  apply (select_kois_unique_stars
           [{| koi_kepid := 7; koi_pdisposition := "CANDIDATE";
               koi_period := Fin 100; koi_prad := Fin 1 |};
            {| koi_kepid := 8; koi_pdisposition := "CANDIDATE";
               koi_period := Fin 100; koi_prad := Fin 1 |}]
           [{| kepid := 7; star_of := flat_star 1460 0.84;
               teff := Fin 5000; rrmscdpp07p5 := Fin 30 |}]).
  simpl. repeat constructor. intros [].
Defined.

(** *** The likelihood on the selected data *)

Lemma isfinite_inv (x : float) : isfinite x = true -> exists v, x = Fin v.
Proof. destruct x as [| | |v]; try discriminate. intros _. now exists v. Qed.

Lemma fadd_finite (x y : float) :
  isfinite x = true -> isfinite y = true -> isfinite (x + y)%np = true.
Proof. destruct x, y; try discriminate; reflexivity. Qed.

Lemma fsub_finite (x y : float) :
  isfinite x = true -> isfinite y = true -> isfinite (x - y)%np = true.
Proof. destruct x, y; try discriminate; reflexivity. Qed.

Lemma fmul_finite (x y : float) :
  isfinite x = true -> isfinite y = true -> isfinite (x * y)%np = true.
Proof. destruct x, y; try discriminate; reflexivity. Qed.

Lemma fsum_finite (xs : list float) :
  Forall (fun x => isfinite x = true) xs -> isfinite (fsum xs) = true.
Proof.
  unfold fsum. generalize (Fin 0) (eq_refl : isfinite (Fin 0) = true).
  induction xs as [|x xs IH]; intros acc Hacc Hall; [exact Hacc|].
  inversion Hall; subst. simpl. apply IH; [|assumption].
  now apply fadd_finite.
Qed.

Lemma log_density_finite (lnf0 beta alpha : R) (p r : float) :
  beta <> -1 -> alpha <> -1 ->
  (exists v, p = Fin v /\ 0 < v) -> (exists v, r = Fin v /\ 0 < v) ->
  isfinite (population_model (Fin lnf0, Fin beta, Fin alpha) p r) = true /\
  isfinite (flog (population_model (Fin lnf0, Fin beta, Fin alpha) p r))
  = true.
Proof.
  intros Hb Ha [P [-> HP]] [Rp [-> HR]].
  destruct (power_law_fin P beta 50 300 HP ltac:(lra) ltac:(lra))
    as [H1 H1pos].
  destruct (power_law_fin Rp alpha 0.75 2.5 HR ltac:(lra) ltac:(lra))
    as [H2 H2pos].
  rewrite population_model_unfold, H1, H2.
  pose proof (exp_pos lnf0) as He.
  split; [reflexivity|]. simpl.
  match goal with
  | |- context [Rltb ?v 0] => assert (Hv : 0 < v)
  end.
  { apply Rmult_lt_0_compat; [|assumption].
    apply Rmult_lt_0_compat; [|assumption]. lra. }
  rewrite Rltb_false by lra. now rewrite Reqb_false by lra.
Qed.

Lemma detection_terms (theta : Theta) (ks : list Koi) :
  map flog (zip_with (population_model theta)
              (koi_periods_of ks) (koi_rps_of ks))
  = map (fun k => flog (population_model theta (koi_period k) (koi_prad k)))
        ks.
Proof.
  unfold zip_with, koi_periods_of, koi_rps_of.
  induction ks as [|k ks IH]; [reflexivity|]. simpl. now rewrite IH.
Qed.

Section FiniteLikelihood.

Variables period rp : list float.
Variable comp : arr2.
Variable ks : list Koi.
Variables lnf0 beta alpha : R.

Let positive (x : float) : Prop := exists v, x = Fin v /\ 0 < v.
Let theta : Theta := (Fin lnf0, Fin beta, Fin alpha).

Hypothesis period_pos : Forall positive period.
Hypothesis rp_pos : Forall positive rp.
Hypothesis comp_rows : length comp = length period.
Hypothesis comp_cols : Forall (fun row => length row = length rp) comp.
Hypothesis comp_fin : arr2_all (fun x => isfinite x = true) comp.
Hypothesis ks_cut : Forall (fun k => koi_cut k = true) ks.
Hypothesis beta_ok : beta <> -1.
Hypothesis alpha_ok : alpha <> -1.

Lemma nth_positive (xs : list float) (i : nat) :
  Forall positive xs -> (i < length xs)%nat -> positive (nth i xs NaN).
Proof.
  intros Hall Hi. rewrite Forall_forall in Hall. apply Hall.
  now apply nth_In.
Qed.

Lemma positive_finite (x : float) : positive x -> isfinite x = true.
Proof. intros [v [-> _]]. reflexivity. Qed.

Lemma grid_integrand_finite (i j : nat) :
  (i < length period)%nat -> (j < length rp)%nat ->
  isfinite (grid_integrand period rp comp theta i j) = true.
Proof.
  intros Hi Hj. unfold grid_integrand. apply fmul_finite.
  - unfold theta.
    apply (proj1 (log_density_finite lnf0 beta alpha _ _ beta_ok alpha_ok
                    (nth_positive period i period_pos Hi)
                    (nth_positive rp j rp_pos Hj))).
  - unfold arr2_all in comp_fin. rewrite Forall_forall in comp_fin.
    assert (Hrow : In (nth i comp []) comp)
      by (apply nth_In; now rewrite comp_rows).
    pose proof (comp_fin _ Hrow) as Hfin. rewrite Forall_forall in Hfin.
    apply Hfin. apply nth_In.
    rewrite Forall_forall in comp_cols. now rewrite (comp_cols _ Hrow).
Qed.

Lemma cell_volume_finite (i j : nat) :
  (S i < length period)%nat -> (S j < length rp)%nat ->
  isfinite (cell_volume period rp i j) = true.
Proof.
  intros Hi Hj. unfold cell_volume.
  apply fmul_finite; apply fsub_finite; apply positive_finite;
    apply nth_positive; auto; lia.
Qed.

Lemma cell_quadrature_finite :
  isfinite (cell_quadrature period rp comp theta) = true.
Proof.
  unfold cell_quadrature. apply fsum_finite. apply Forall_forall.
  intros x Hx. apply in_flat_map in Hx. destruct Hx as [i [Hi Hx]].
  apply in_map_iff in Hx. destruct Hx as [j [<- Hj]].
  apply in_seq in Hi. apply in_seq in Hj.
  apply fmul_finite; [apply fmul_finite; [reflexivity|]|].
  - apply fadd_finite; apply grid_integrand_finite; lia.
  - apply cell_volume_finite; lia.
Qed.

Lemma detection_sum_finite :
  isfinite (fsum (map flog (zip_with (population_model theta)
                              (koi_periods_of ks) (koi_rps_of ks)))) = true.
Proof.
  rewrite detection_terms. apply fsum_finite. apply Forall_map.
  eapply Forall_impl; [|exact ks_cut]. intros k Hk. cbv beta.
  apply koi_cut_iff in Hk. destruct Hk as [_ [[p [Hp Hpr]] [r [Hr Hrr]]]].
  unfold theta. apply log_density_finite; auto.
  - exists p. split; [exact Hp | lra].
  - exists r. split; [exact Hr | lra].
Qed.

Lemma lnlike_finite_selected :
  isfinite (lnlike period rp comp (koi_periods_of ks) (koi_rps_of ks) theta)
  = true.
Proof.
  unfold lnlike.
  rewrite (norm_is_cell_quadrature period rp comp comp_rows comp_cols theta).
  assert (Hll : isfinite
                  (fsum (map flog (zip_with (population_model theta)
                                     (koi_periods_of ks) (koi_rps_of ks)))
                   - cell_quadrature period rp comp theta)%np = true).
  { apply fsub_finite;
      [exact detection_sum_finite | exact cell_quadrature_finite]. }
  now rewrite Hll.
Qed.

End FiniteLikelihood.



(** *** The cell volumes and the expected number of detections *)

Lemma increasing_tail (x : R) (xs : list R) :
  increasing (x :: xs) -> increasing xs.
Proof. destruct xs as [|y ys]; [auto | now intros [_ H]]. Qed.

Lemma increasing_nth (xs : list R) (i : nat) :
  increasing xs -> (S i < length xs)%nat -> nth i xs 0 < nth (S i) xs 0.
Proof.
  revert i. induction xs as [|x xs IH]; intros i Hinc Hi; [simpl in Hi; lia|].
  destruct i as [|i].
  - destruct xs as [|y ys]; [simpl in Hi; lia|]. now destruct Hinc.
  - change (nth i xs 0 < nth (S i) xs 0). apply IH.
    + now apply increasing_tail in Hinc.
    + simpl in Hi. lia.
Qed.

Lemma nth_map_Fin (xs : list R) (i : nat) :
  (i < length xs)%nat -> nth i (map Fin xs) NaN = Fin (nth i xs 0).
Proof.
  intros Hi. rewrite (nth_indep _ NaN (Fin 0)) by now rewrite length_map.
  apply (map_nth Fin).
Qed.

Lemma cell_volume_positive (ps rs : list R) (i j : nat) :
  increasing ps -> increasing rs ->
  (S i < length ps)%nat -> (S j < length rs)%nat ->
  exists v, cell_volume (map Fin ps) (map Fin rs) i j = Fin v /\ 0 < v.
Proof.
  intros Hp Hr Hi Hj. unfold cell_volume.
  rewrite !nth_map_Fin by lia.
  pose proof (increasing_nth ps i Hp Hi).
  pose proof (increasing_nth rs j Hr Hj).
  eexists. split; [reflexivity|]. apply Rmult_lt_0_compat; lra.
Qed.



Lemma fsum_nonneg (xs : list float) :
  Forall (fun x => exists v, x = Fin v /\ 0 <= v) xs ->
  exists s, fsum xs = Fin s /\ 0 <= s.
Proof.
  unfold fsum.
  assert (H : forall acc, 0 <= acc ->
              Forall (fun x => exists v, x = Fin v /\ 0 <= v) xs ->
              exists s, fold_left fadd xs (Fin acc) = Fin s /\ 0 <= s).
  { induction xs as [|x xs IH]; intros acc Hacc Hall.
    - exists acc. now split.
    - inversion Hall as [|? ? [v [-> Hv]] Hrest]; subst. simpl.
      apply IH; [lra | assumption]. }
  apply H. lra.
Qed.

Lemma density_positive (lnf0 beta alpha P Rp : R) :
  beta <> -1 -> alpha <> -1 -> 0 < P -> 0 < Rp ->
  exists v,
    population_model (Fin lnf0, Fin beta, Fin alpha) (Fin P) (Fin Rp) = Fin v
    /\ 0 < v.
Proof.
  intros Hb Ha HP HR.
  destruct (power_law_fin P beta 50 300 HP ltac:(lra) ltac:(lra))
    as [H1 H1pos].
  destruct (power_law_fin Rp alpha 0.75 2.5 HR ltac:(lra) ltac:(lra))
    as [H2 H2pos].
  rewrite population_model_unfold, H1, H2.
  pose proof (exp_pos lnf0) as He.
  eexists. split; [reflexivity|].
  apply Rmult_lt_0_compat; [|assumption].
  apply Rmult_lt_0_compat; [|assumption]. lra.
Qed.

Section ExpectedCount.

Variables ps rs : list R.
Variable comp : arr2.
Variables lnf0 beta alpha : R.

Let theta : Theta := (Fin lnf0, Fin beta, Fin alpha).
Let nonneg (x : float) : Prop := exists v, x = Fin v /\ 0 <= v.

Hypothesis ps_inc : increasing ps.
Hypothesis rs_inc : increasing rs.
Hypothesis ps_pos : Forall (fun p => 0 < p) ps.
Hypothesis rs_pos : Forall (fun r => 0 < r) rs.
Hypothesis comp_rows : length comp = length ps.
Hypothesis comp_cols : Forall (fun row => length row = length rs) comp.
Hypothesis comp_nonneg : arr2_all (fun x => exists v, x = Fin v /\ 0 <= v) comp.
Hypothesis beta_ok : beta <> -1.
Hypothesis alpha_ok : alpha <> -1.

Lemma grid_integrand_nonneg (i j : nat) :
  (i < length ps)%nat -> (j < length rs)%nat ->
  nonneg (grid_integrand (map Fin ps) (map Fin rs) comp theta i j).
Proof.
  intros Hi Hj. unfold grid_integrand. rewrite !nth_map_Fin by assumption.
  rewrite Forall_forall in ps_pos, rs_pos.
  destruct (density_positive lnf0 beta alpha (nth i ps 0) (nth j rs 0)
              beta_ok alpha_ok (ps_pos _ (nth_In _ _ Hi))
              (rs_pos _ (nth_In _ _ Hj))) as [d [Hd Hdpos]].
  unfold theta. rewrite Hd.
  unfold arr2_all in comp_nonneg. rewrite Forall_forall in comp_nonneg.
  assert (Hrow : In (nth i comp []) comp)
    by (apply nth_In; now rewrite comp_rows).
  pose proof (comp_nonneg _ Hrow) as Hfin. rewrite Forall_forall in Hfin.
  destruct (Hfin (nth j (nth i comp []) NaN)) as [c [Hc Hcpos]].
  { apply nth_In. rewrite Forall_forall in comp_cols.
    now rewrite (comp_cols _ Hrow). }
  rewrite Hc. exists (d * c). split; [reflexivity|].
  apply Rmult_le_pos; lra.
Qed.

Lemma cell_quadrature_nonneg :
  nonneg (cell_quadrature (map Fin ps) (map Fin rs) comp theta).
Proof.
  unfold cell_quadrature. apply fsum_nonneg. apply Forall_forall.
  intros x Hx. apply in_flat_map in Hx. destruct Hx as [i [Hi Hx]].
  apply in_map_iff in Hx. destruct Hx as [j [<- Hj]].
  apply in_seq in Hi. apply in_seq in Hj. rewrite length_map in Hi, Hj.
  destruct (grid_integrand_nonneg i j) as [a [-> Ha]]; [lia | lia |].
  destruct (grid_integrand_nonneg (S i) (S j)) as [b [-> Hb]]; [lia | lia |].
  destruct (cell_volume_positive ps rs i j ps_inc rs_inc) as [v [-> Hv]];
    [lia | lia |].
  exists (0.5 * (a + b) * v). split; [reflexivity|].
  apply Rmult_le_pos; [|lra]. lra.
Qed.

End ExpectedCount.



(** *** The multiple event statistic *)

Lemma mes_real_nonneg (r T f P sigma rp : R) :
  0 < r -> 0 < sigma -> 0 <= rp -> 0 <= mes_real r T f P sigma rp.
Proof.
  intros Hr Hs Hrp. unfold mes_real.
  assert (Hir : 0 < / r) by now apply Rinv_0_lt_compat.
  assert (His : 0 < / sigma) by now apply Rinv_0_lt_compat.
  set (k := rp * 0.009171 / r).
  assert (Hk : 0 <= k).
  { unfold k, Rdiv. apply Rmult_le_pos; [|lra]. lra. }
  pose proof (sqrt_pos (T * f / P)) as Hsq.
  apply Rmult_le_pos; [|exact Hsq].
  unfold Rdiv. apply Rmult_le_pos; [|lra].
  assert (0 <= k * k * (1.0874 + 1.0187 * k)) by (apply Rmult_le_pos; nra).
  lra.
Qed.

Lemma get_mes_finite (cdpp_vals mesthres_vals : list R) (star : Star)
    (P tau : R) :
  star_ok cdpp_vals mesthres_vals star -> 0 < P ->
  exists r T f sigma,
    0 < r /\ 0 <= T /\ 0 <= f /\ 0 < sigma /\
    forall rp,
      get_mes cdpp_vals star (Fin P) (Fin rp) (Fin tau)
      = Some (Fin (mes_real r T f P sigma rp)).
Proof.
  intros (r & m & T & f & noise & thr & Hr & Hrpos & _ & _
          & HT & HTpos & Hf & Hfr & Hn & Hnpos & _) HP.
  destruct (np_interp_curve tau _ _ _ Hn) as [sigma [Hs Hsl]].
  assert (Hsig : 0 < sigma).
  { eapply clamped_lerp_pos; [|exact Hsl]. now apply combine_snd_pos. }
  exists r, T, f, sigma. repeat (split; [assumption || lra|]).
  intros rp. unfold get_mes, get_mes_with. rewrite Hs. simpl bind.
  rewrite Hr, HT, Hf. do 2 f_equal.
  rewrite (Reqb_false r 0) by lra. rewrite get_delta_fin.
  change (Fin T * Fin f)%np with (Fin (T * f)).
  rewrite (fdiv_fin _ P) by lra.
  rewrite fsqrt_fin.
  2:{ apply Rmult_le_pos; [apply Rmult_le_pos; lra|].
      left. apply Rinv_0_lt_compat. lra. }
  simpl. rewrite (Reqb_false sigma 0) by lra. simpl. f_equal.
Qed.


